(** * ASL translator: the letter commit loop and its configuration store

    Shallow embedding of the gating logic of
    [src/components/ASLTranslator.tsx] (the body of [loop] from the point
    where the best prediction has been selected, and the word-boundary
    timer it arms) and of the two clamping setters of
    [src/store/aslStore.ts]; then of what surrounds them: the selection
    and trimming of the prediction, Reset, unmount and Copy Text, the
    saved copy of the text, the cooldown of [src/api/nlp.ts], and the
    dispatch of the dataset worker.

    Modelling conventions.
    - A JavaScript [number] that holds a confidence, a threshold or a hold
      time is a value of [number]: NaN, the two infinities, or a finite
      value, the latter carried as a rational.  Only comparisons,
      [Math.min], [Math.max] and [Math.round] are applied to them.
    - Instants ([Date.now()]) are integers (milliseconds), in [Z].
    - [useRef] cells and the [text] field of the store are fields of one
      record, [Session]; the host's table of pending [setTimeout] timers is
      a finite map from timer id to due instant, also kept there.
    - One iteration of [loop] after its [await] runs to completion without
      interleaving, and so does a timer callback: a trace is a list of
      such atomic events.
    - A timer armed by an iteration is taken to be due [LETTER_GAP_MS]
      after the instant [now] that iteration read.
    - Labels are ASCII strings.  The calls that only feed the display
      ([setConfidenceDisplay], [setRecognition], [setStatus]) are left
      out. *)

From Stdlib Require Import ZArith QArith Qround Lia Lqa Bool Ascii String List.
From stdpp Require Import gmap strings.
Import ListNotations.

Local Open Scope Z_scope.

(** ** JavaScript numbers *)

Inductive number : Type :=
| NaN
| NegInfinity
| Infinity
| Num (q : Q).

(** [a <= b] of JavaScript: false as soon as one side is NaN. *)
Definition js_le (a b : number) : bool :=
  match a, b with
  | NaN, _ | _, NaN => false
  | NegInfinity, _ => true
  | _, Infinity => true
  | Num x, Num y => Qle_bool x y
  | _, _ => false
  end.

(** [a >= b]. *)
Definition js_ge (a b : number) : bool := js_le b a.

(** [a < b]. *)
Definition js_lt (a b : number) : bool :=
  match a, b with
  | NaN, _ | _, NaN => false
  | _, _ => negb (js_le b a)
  end.

Definition Math_max (a b : number) : number :=
  match a, b with
  | NaN, _ | _, NaN => NaN
  | _, _ => if js_le a b then b else a
  end.

Definition Math_min (a b : number) : number :=
  match a, b with
  | NaN, _ | _, NaN => NaN
  | _, _ => if js_le a b then a else b
  end.

(** [Math.round]: the nearest integer, a tie going towards +Infinity. *)
Definition Math_round (a : number) : number :=
  match a with
  | Num q => Num (inject_Z (Qfloor (q + (1 # 2))))
  | _ => a
  end.

Definition of_Z (z : Z) : number := Num (inject_Z z).

(** ** Strings *)

(** [String.prototype.toUpperCase], on the ASCII range: the letters a-z
    go to A-Z and every other ASCII character stays.  What upper-casing
    does to characters outside ASCII (it may even change the length) is
    not modelled; statements about the shape of an upper-cased label are
    made for ASCII labels. *)
Definition upper_ascii (c : ascii) : ascii :=
  let n := N_of_ascii c in
  if ((97 <=? n) && (n <=? 122))%N then ascii_of_N (n - 32) else c.

Fixpoint toUpperCase (s : string) : string :=
  match s with
  | EmptyString => EmptyString
  | String c r => String (upper_ascii c) (toUpperCase r)
  end.

(** [s.endsWith(c)] for a one-character suffix [c]. *)
Fixpoint endsWith (s : string) (c : ascii) : bool :=
  match s with
  | EmptyString => false
  | String a EmptyString => Ascii.eqb a c
  | String _ r => endsWith r c
  end.

Definition space : ascii := " "%char.

(** ** Constants of ASLTranslator.tsx *)

Definition LETTER_GAP_MS : Z := 3000.
Definition RELEASE_MS : Z := 300.

(** ** The state the loop and the timer callback share *)

Record Session : Type := mkSession {
  text : string;                      (* useAslStore: text *)
  lastDetectedLabelRef : string;
  stableSinceRef : Z;
  lastEmittedLabelRef : string;
  lastWordBoundaryTimeRef : Z;
  letterGapTimerRef : option Z;       (* null, or a timer id *)
  releaseStartRef : Z;
  timers : gmap Z Z;                  (* host: pending timer id |-> due instant *)
  nextTimerId : Z                     (* host: next id setTimeout hands out *)
}.

(** The refs as [useRef] initialises them, over a saved text; no timer is
    pending and ids start at 1. *)
Definition initial (savedText : string) : Session :=
  {| text := savedText;
     lastDetectedLabelRef := "";
     stableSinceRef := 0;
     lastEmittedLabelRef := "";
     lastWordBoundaryTimeRef := 0;
     letterGapTimerRef := None;
     releaseStartRef := 0;
     timers := ∅;
     nextTimerId := 1 |}.

(** What one iteration of [loop] has in its locals at line 218: the
    threshold read from the store, the [holdMs] the closure captured, the
    trimmed class name and probability of the best prediction, and the
    instant. *)
Record Frame : Type := mkFrame {
  thr : number;
  holdMs : number;
  label : string;
  conf : number;
  now : Z
}.

(** [appendText t] of the store. *)
Definition appendText (t : string) (s : Session) : Session :=
  {| text := text s +:+ t;
     lastDetectedLabelRef := lastDetectedLabelRef s;
     stableSinceRef := stableSinceRef s;
     lastEmittedLabelRef := lastEmittedLabelRef s;
     lastWordBoundaryTimeRef := lastWordBoundaryTimeRef s;
     letterGapTimerRef := letterGapTimerRef s;
     releaseStartRef := releaseStartRef s;
     timers := timers s;
     nextTimerId := nextTimerId s |}.

(** [if (letterGapTimerRef.current) clearTimeout(letterGapTimerRef.current)]:
    the test is JavaScript truthiness, so a null ref and the id 0 skip
    the call. *)
Definition clearLetterGapTimer (s : Session) : gmap Z Z :=
  match letterGapTimerRef s with
  | Some id => if id =? 0 then timers s else delete id (timers s)
  | None => timers s
  end.

(** Lines 221-224: restart the dwell clock when the label changes. *)
Definition track (f : Frame) (s : Session) : Session :=
  if negb (String.eqb (lastDetectedLabelRef s) (label f)) then
    {| text := text s;
       lastDetectedLabelRef := label f;
       stableSinceRef := now f;
       lastEmittedLabelRef := lastEmittedLabelRef s;
       lastWordBoundaryTimeRef := lastWordBoundaryTimeRef s;
       letterGapTimerRef := letterGapTimerRef s;
       releaseStartRef := releaseStartRef s;
       timers := timers s;
       nextTimerId := nextTimerId s |}
  else s.

Definition heldLongEnough (f : Frame) (s : Session) : bool :=
  js_ge (of_Z (now f - stableSinceRef s)) (holdMs f).

Definition released (f : Frame) (s : Session) : bool :=
  (0 <? releaseStartRef s) && (RELEASE_MS <=? now f - releaseStartRef s).

Definition shouldCommit (f : Frame) (s : Session) : bool :=
  (negb (String.eqb (label f) (lastEmittedLabelRef s)) || released f s)
  && heldLongEnough f s.

(** Lines 233-247: append the letter, remember it, reset the release
    clock, and re-arm the word-boundary timer. *)
Definition commit (f : Frame) (s : Session) : Session :=
  let s1 := appendText (toUpperCase (label f)) s in
  {| text := text s1;
     lastDetectedLabelRef := lastDetectedLabelRef s1;
     stableSinceRef := stableSinceRef s1;
     lastEmittedLabelRef := label f;
     lastWordBoundaryTimeRef := lastWordBoundaryTimeRef s1;
     letterGapTimerRef := Some (nextTimerId s1);
     releaseStartRef := 0;
     timers := <[nextTimerId s1 := now f + LETTER_GAP_MS]> (clearLetterGapTimer s1);
     nextTimerId := nextTimerId s1 + 1 |}.

(** Lines 253-255: below threshold. *)
Definition belowThreshold (f : Frame) (s : Session) : Session :=
  {| text := text s;
     lastDetectedLabelRef := "";
     stableSinceRef := 0;
     lastEmittedLabelRef := lastEmittedLabelRef s;
     lastWordBoundaryTimeRef := lastWordBoundaryTimeRef s;
     letterGapTimerRef := letterGapTimerRef s;
     releaseStartRef := if releaseStartRef s =? 0 then now f else releaseStartRef s;
     timers := timers s;
     nextTimerId := nextTimerId s |}.

(** Lines 218-256 of [loop].  The second component is the argument handed
    to [appendText] by this iteration, if any. *)
Definition loop (f : Frame) (s : Session) : Session * option string :=
  if js_ge (conf f) (thr f) then
    let s1 := track f s in
    if shouldCommit f s1
    then (commit f s1, Some (toUpperCase (label f)))
    else (s1, None)
  else (belowThreshold f s, None).

(** Lines 240-247: the callback of the word-boundary timer, run at
    instant [t]. *)
Definition letterGapCallback (t : Z) (s : Session) : Session * option string :=
  let current := text s in
  if negb (String.eqb current "") && negb (endsWith current space) then
    let s1 := appendText (String space "") s in
    ({| text := text s1;
        lastDetectedLabelRef := lastDetectedLabelRef s1;
        stableSinceRef := stableSinceRef s1;
        lastEmittedLabelRef := lastEmittedLabelRef s1;
        lastWordBoundaryTimeRef := t;
        letterGapTimerRef := letterGapTimerRef s1;
        releaseStartRef := releaseStartRef s1;
        timers := timers s1;
        nextTimerId := nextTimerId s1 |}, Some (String space ""))
  else (s, None).

(** The host fires timer [id] at instant [t]: possible only for a pending
    timer that is due; the timer leaves the table and its callback runs.
    Any other attempt changes nothing. *)
Definition fireTimer (id t : Z) (s : Session) : Session * option string :=
  match timers s !! id with
  | Some due =>
      if due <=? t then
        letterGapCallback t
          {| text := text s;
             lastDetectedLabelRef := lastDetectedLabelRef s;
             stableSinceRef := stableSinceRef s;
             lastEmittedLabelRef := lastEmittedLabelRef s;
             lastWordBoundaryTimeRef := lastWordBoundaryTimeRef s;
             letterGapTimerRef := letterGapTimerRef s;
             releaseStartRef := releaseStartRef s;
             timers := delete id (timers s);
             nextTimerId := nextTimerId s |}
      else (s, None)
  | None => (s, None)
  end.

(** ** Traces *)

Inductive Event : Type :=
| Tick (f : Frame)
| Timeout (id t : Z).

Definition step (e : Event) (s : Session) : Session * option string :=
  match e with
  | Tick f => loop f s
  | Timeout id t => fireTimer id t s
  end.

(** The session after a trace. *)
Fixpoint exec (tr : list Event) (s : Session) : Session :=
  match tr with
  | [] => s
  | e :: tr' => exec tr' (fst (step e s))
  end.

(** What each event of a trace handed to [appendText], position by
    position. *)
Fixpoint outputs (tr : list Event) (s : Session) : list (option string) :=
  match tr with
  | [] => []
  | e :: tr' => snd (step e s) :: outputs tr' (fst (step e s))
  end.

(** ** The configuration store (aslStore.ts) *)

Record Config : Type := mkConfig {
  threshold : number;
  cfgHoldMs : number
}.

Definition initialConfig : Config :=
  {| threshold := Num (95 # 100); cfgHoldMs := of_Z 600 |}.

Definition setThreshold (v : number) (c : Config) : Config :=
  {| threshold := Math_min (Num 1) (Math_max (Num (7 # 10)) v);
     cfgHoldMs := cfgHoldMs c |}.

Definition setHoldMs (ms : number) (c : Config) : Config :=
  {| threshold := threshold c;
     cfgHoldMs := Math_min (of_Z 1200) (Math_max (of_Z 200) (Math_round ms)) |}.

(** ** The scenarios of the specification *)

Definition frameA (c : Q) (t : Z) : Frame :=
  {| thr := Num (95 # 100); holdMs := of_Z 600; label := "A"; conf := Num c; now := t |}.

Definition endToEnd : list Event :=
  map (fun t => Tick (frameA (97 # 100) t))
      [0; 100; 200; 300; 400; 500; 600; 700; 800; 900; 1000].

(** The doubled-letter scenario: the release at 0.80 from t=650 for 350 ms,
    then "A" again from t=950 through t=1550. *)
Definition doubledLetter : list Event :=
  endToEnd
  ++ map (fun t => Tick (frameA (80 # 100) t)) [650; 700; 750; 800; 850; 900]
  ++ map (fun t => Tick (frameA (97 # 100) t))
       [950; 1000; 1050; 1100; 1150; 1200; 1250; 1300; 1350; 1400; 1450; 1500; 1550].

(** ** Observations on traces *)

(** The letters committed along a trace, each with the instant of the
    tick that committed it. *)
Fixpoint emissions (tr : list Event) (s : Session) : list (Z * string) :=
  match tr with
  | [] => []
  | e :: tr' =>
      match e, snd (step e s) with
      | Tick f, Some c => (now f, c) :: emissions tr' (fst (step e s))
      | _, _ => emissions tr' (fst (step e s))
      end
  end.

(** The instants at which a timer callback appended along a trace. *)
Fixpoint boundaries (tr : list Event) (s : Session) : list Z :=
  match tr with
  | [] => []
  | e :: tr' =>
      match e, snd (step e s) with
      | Timeout _ t, Some _ => t :: boundaries tr' (fst (step e s))
      | _, _ => boundaries tr' (fst (step e s))
      end
  end.

Definition aboveThreshold (f : Frame) : bool := js_ge (conf f) (thr f).

(** Where the dwell of label [L] is counted from, for a run of ticks on
    [L] that starts in session [s] at instant [t0]: the running
    [stableSinceRef] when [L] is already the tracked label, else [t0]. *)
Definition dwellStart (s : Session) (L : string) (t0 : Z) : Z :=
  if String.eqb (lastDetectedLabelRef s) L then stableSinceRef s else t0.

Definition dwellReached (since : Z) (f : Frame) : bool :=
  js_ge (of_Z (now f - since)) (holdMs f).

(** A value of the store lies in the closed range [lo, hi]. *)
Definition inRange (lo hi x : number) : bool := js_le lo x && js_le x hi.

Inductive ConfigOp : Type :=
| SetThreshold (v : number)
| SetHoldMs (ms : number).

Definition applyOp (o : ConfigOp) (c : Config) : Config :=
  match o with
  | SetThreshold v => setThreshold v c
  | SetHoldMs ms => setHoldMs ms c
  end.

Definition applyOps (ops : list ConfigOp) (c : Config) : Config :=
  fold_left (fun c o => applyOp o c) ops c.

Definition isNaN (x : number) : bool :=
  match x with NaN => true | _ => false end.

Definition opArg (o : ConfigOp) : number :=
  match o with SetThreshold v => v | SetHoldMs ms => ms end.

(** The session has just committed [L] and no release has started. *)
Definition quiet (L : string) (s : Session) : Prop :=
  lastEmittedLabelRef s = L /\ releaseStartRef s = 0.

(** Every tick of the trace reports [L] at or above threshold; timer
    events may be interleaved freely. *)
Definition holdsLabel (L : string) (e : Event) : Prop :=
  match e with
  | Tick f => label f = L /\ aboveThreshold f = true
  | Timeout _ _ => True
  end.

(** The tick reports [L] at or above its threshold. *)
Definition reports (L : string) (f : Frame) : Prop :=
  label f = L /\ aboveThreshold f = true.

(** A tick that is not at or above its threshold: the [else] branch. *)
Definition belowTick (f : Frame) : Prop := aboveThreshold f = false.

(** The frames of the ticks of a trace, in order. *)
Definition ticksOf (tr : list Event) : list Frame :=
  flat_map (fun e => match e with Tick f => [f] | Timeout _ _ => [] end) tr.

(** Between the instants [t1] and [t2] lies an interval of length at
    least [RELEASE_MS] inside which every tick is below its threshold. *)
Definition releasedBetween (fs : list Frame) (t1 t2 : Z) : Prop :=
  exists a b, t1 <= a /\ b <= t2 /\ RELEASE_MS <= b - a /\
    forall f, In f fs -> a < now f < b -> js_lt (conf f) (thr f) = true.

(** "A" is committed at 600; one tick at 650 is below threshold; "A" is
    back from 700 on. *)
Definition briefDip : list Event :=
  map (fun t => Tick (frameA (97 # 100) t)) [0; 100; 200; 300; 400; 500; 600]
  ++ [Tick (frameA (80 # 100) 650)]
  ++ map (fun t => Tick (frameA (97 # 100) t)) [700; 800; 900; 1000; 1100; 1200; 1300].

(** The text is empty or ends with a space: a callback has nothing to do. *)
Definition sealedText (s : Session) : Prop :=
  text s = ""%string \/ endsWith (text s) space = true.

(** At most one timer is pending; it is the one the ref names, and it is
    due [LETTER_GAP_MS] after the latest commit. *)
Definition timerInv (latest : option (Z * string)) (s : Session) : Prop :=
  0 < nextTimerId s /\
  (forall id, letterGapTimerRef s = Some id -> id <> 0) /\
  (timers s = ∅ \/
   exists id tc c, latest = Some (tc, c) /\ letterGapTimerRef s = Some id /\
                   timers s = {[ id := tc + LETTER_GAP_MS ]}).

(** A class the letters model may carry besides the letters. *)
Definition frameDel (t : Z) : Frame :=
  {| thr := Num (95 # 100); holdMs := of_Z 600; label := "del";
     conf := Num (97 # 100); now := t |}.

(** A tick the clock and the classifier can be expected to produce: its
    instant is not the 0 the refs use for "unset", and its label is not
    empty when it is at or above threshold. *)
Definition properTick (e : Event) : Prop :=
  match e with
  | Tick f => now f <> 0 /\ (aboveThreshold f = true -> label f <> ""%string)
  | Timeout _ _ => True
  end.

(** The doubled-letter scenario from its second tick on. *)
Definition doubledLetter_tail : list Event := tail doubledLetter.

(** "A" at 100, then the empty label at 200, both at 0.97. *)
Definition emptyLabelTrace : list Event :=
  [Tick (frameA (97 # 100) 100);
   Tick {| thr := Num (95 # 100); holdMs := of_Z 600; label := "";
           conf := Num (97 # 100); now := 200 |}].

(** [v] clamped to the closed range [lo, hi], in the words of the
    specification: [hi] from [hi] upwards, [lo] below [lo], else [v]. *)
Definition clampTo (lo hi v : number) : number :=
  if js_le hi v then hi else if js_le lo v then v else lo.

(** [s.startsWith(c)] for a one-character prefix [c]. *)
Definition startsWith (s : string) (c : ascii) : bool :=
  match s with
  | EmptyString => false
  | String a _ => Ascii.eqb a c
  end.

(** The label of a tick comes out of [trim()]: it does not start with a
    space. *)
Definition trimmedTick (e : Event) : Prop :=
  match e with
  | Tick f => startsWith (label f) space = false
  | Timeout _ _ => True
  end.

(** ** Selecting the prediction (ASLTranslator.tsx, lines 210-214) *)

(** A prediction of the classifier, as teachable.d.ts declares it. *)
Record Prediction : Type := mkPrediction {
  className : string;
  probability : number
}.

(** The reducer of line 211, [(a, b) => a.probability > b.probability ? a : b]. *)
Definition moreProbable (a b : Prediction) : Prediction :=
  if js_lt (probability b) (probability a) then a else b.

(** [preds.reduce(f)] without an initial value: the first element seeds
    the fold, and an empty array throws a TypeError ([None]). *)
Definition best (preds : list Prediction) : option Prediction :=
  match preds with
  | [] => None
  | p :: rest => Some (fold_left moreProbable rest p)
  end.

(** Comparing predictions by probability. *)
Definition atMost (b p : Prediction) : Prop :=
  js_le (probability p) (probability b) = true.

Definition below (b p : Prediction) : Prop :=
  js_lt (probability p) (probability b) = true.

Definition hasProbability (p : Prediction) : Prop := isNaN (probability p) = false.

(** White space of [String.prototype.trim] in the ASCII range: tab, line
    feed, vertical tab, form feed, carriage return and space. *)
Definition isWhiteSpace (c : ascii) : bool :=
  let n := N_of_ascii c in
  (((9 <=? n) && (n <=? 13)) || (n =? 32))%N.

Fixpoint trimStart (s : string) : string :=
  match s with
  | EmptyString => EmptyString
  | String c r => if isWhiteSpace c then trimStart r else s
  end.

Fixpoint trimEnd (s : string) : string :=
  match s with
  | EmptyString => EmptyString
  | String c r =>
      match trimEnd r with
      | EmptyString => if isWhiteSpace c then EmptyString else String c EmptyString
      | r' => String c r'
      end
  end.

Definition trim (s : string) : string := trimEnd (trimStart s).

Definition startsWhite (s : string) : bool :=
  match s with
  | EmptyString => false
  | String c _ => isWhiteSpace c
  end.

Fixpoint endsWhite (s : string) : bool :=
  match s with
  | EmptyString => false
  | String c EmptyString => isWhiteSpace c
  | String _ r => endsWhite r
  end.

(** Lines 210-218: the locals of an iteration, from the predictions of
    the model, the instant, and the two settings; no frame when [reduce]
    throws. *)
Definition frameOf (thr0 holdMs0 : number) (preds : list Prediction) (t : Z)
  : option Frame :=
  match best preds with
  | None => None
  | Some b =>
      Some {| thr := thr0; holdMs := holdMs0; label := trim (className b);
              conf := probability b; now := t |}
  end.

(** An event the running program produces: a tick whose frame was built
    by lines 210-218, or a timer firing. *)
Definition sampled (e : Event) : Prop :=
  match e with
  | Tick f => exists preds, frameOf (thr f) (holdMs f) preds (now f) = Some f
  | Timeout _ _ => True
  end.

(** ** Reset and unmount (ASLTranslator.tsx, lines 101-116 and 287-297) *)

(** What the [if (letterGapTimerRef.current) { clearTimeout(...);
    letterGapTimerRef.current = null; }] of both handlers leaves in the
    ref: a falsy ref is not touched. *)
Definition clearedRef (s : Session) : option Z :=
  match letterGapTimerRef s with
  | Some id => if id =? 0 then Some id else None
  | None => None
  end.

(** [onReset]: [resetText()] empties the text, and the gating refs go
    back to their initial values, the pending timer is cleared;
    [releaseStartRef] is not among the refs it resets. *)
Definition onReset (s : Session) : Session :=
  {| text := "";
     lastDetectedLabelRef := "";
     stableSinceRef := 0;
     lastEmittedLabelRef := "";
     lastWordBoundaryTimeRef := 0;
     letterGapTimerRef := clearedRef s;
     releaseStartRef := releaseStartRef s;
     timers := clearLetterGapTimer s;
     nextTimerId := nextTimerId s |}.






(** Everything a trace handed to [appendText], concatenated in order. *)
Fixpoint appended (tr : list Event) (s : Session) : string :=
  match tr with
  | [] => ""
  | e :: tr' =>
      match snd (step e s) with
      | Some o => o +:+ appended tr' (fst (step e s))
      | None => appended tr' (fst (step e s))
      end
  end.

(** [copyText]: what goes to the clipboard. *)
Definition copyText (s : Session) : string := trim (text s).

(** ** The text of the store and its saved copy (aslStore.ts) *)

(** The store's [text] and the [asl_text] item of localStorage. *)
Record TextStore : Type := mkTextStore {
  storeText : string;
  asl_text : option string
}.

(** [localStorage.getItem('asl_text') || '']. *)
Definition savedTextOf (item : option string) : string :=
  match item with
  | Some t => t
  | None => ""
  end.

(** The store as a page load creates it. *)
Definition loadStore (item : option string) : TextStore :=
  {| storeText := savedTextOf item; asl_text := item |}.

(** An action on the text; [stored] tells whether the localStorage call
    inside its [try] went through or threw. *)
Inductive TextOp : Type :=
| AppendText (t : string) (stored : bool)
| ResetText (stored : bool).

Definition textOp (o : TextOp) (st : TextStore) : TextStore :=
  match o with
  | AppendText t stored =>
      let next := storeText st +:+ t in
      {| storeText := next; asl_text := if stored then Some next else asl_text st |}
  | ResetText stored =>
      {| storeText := ""; asl_text := if stored then None else asl_text st |}
  end.

Definition textOps (ops : list TextOp) (st : TextStore) : TextStore :=
  fold_left (fun st o => textOp o st) ops st.

Definition opStored (o : TextOp) : bool :=
  match o with AppendText _ b => b | ResetText b => b end.

(** ** Sentence correction (api/nlp.ts) *)

Definition AI_FAILURE_COOLDOWN_MS : Z := 30000.

(** One call of [correctSentence], with what it reads from its
    environment: whether the scene is configured, whether the browser is
    offline, the instant read by the cooldown test, the instant read in
    the [catch], and what the [try] block comes to, the generated text
    or an exception ([None]).  The prompt builder of the configuration
    is taken to return, and calls are taken one after the other. *)
Record Call : Type := mkCall {
  rawText : string;
  configured : bool;
  isOffline : bool;
  checkedAt : Z;
  failedAt : Z;
  reply : option string
}.

(** The outcome of a call: the returned text, whether a request was
    sent, and the module variable [lastAiFailureAt] afterwards. *)
Record Outcome : Type := mkOutcome {
  returned : string;
  requested : bool;
  lastAiFailureAt : Z
}.

Definition correctSentence (lastFailure : Z) (c : Call) : Outcome :=
  if negb (configured c) then
    {| returned := rawText c; requested := false; lastAiFailureAt := lastFailure |}
  else if isOffline c then
    {| returned := rawText c; requested := false; lastAiFailureAt := lastFailure |}
  else if negb (lastFailure =? 0) && (checkedAt c - lastFailure <? AI_FAILURE_COOLDOWN_MS) then
    {| returned := rawText c; requested := false; lastAiFailureAt := lastFailure |}
  else
    match reply c with
    | Some t => {| returned := trim t; requested := true; lastAiFailureAt := lastFailure |}
    | None => {| returned := rawText c; requested := true; lastAiFailureAt := failedAt c |}
    end.

(** [lastAiFailureAt] after a sequence of calls. *)
Definition afterCalls (calls : list Call) (lastFailure : Z) : Z :=
  fold_left (fun l c => lastAiFailureAt (correctSentence l c)) calls lastFailure.

(** The dwell clock of a non-empty tracked label is the instant of a
    tick of the trace from which on every tick reported that label at or
    above threshold. *)
Definition dwellBacked (tr : list Event) (s : Session) : Prop :=
  lastDetectedLabelRef s = ""%string \/
  exists pre g run,
    tr = pre ++ Tick g :: run /\
    Forall (holdsLabel (lastDetectedLabelRef s)) (Tick g :: run) /\
    stableSinceRef s = now g.

(** A tick that compares against NaN. *)
Definition blindTick (e : Event) : Prop :=
  match e with
  | Tick f => isNaN (thr f) = true \/ isNaN (holdMs f) = true \/ isNaN (conf f) = true
  | Timeout _ _ => True
  end.

(** The session with its release clock set to [r]. *)
Definition withRelease (r : Z) (s : Session) : Session :=
  {| text := text s;
     lastDetectedLabelRef := lastDetectedLabelRef s;
     stableSinceRef := stableSinceRef s;
     lastEmittedLabelRef := lastEmittedLabelRef s;
     lastWordBoundaryTimeRef := lastWordBoundaryTimeRef s;
     letterGapTimerRef := letterGapTimerRef s;
     releaseStartRef := r;
     timers := timers s;
     nextTimerId := nextTimerId s |}.

Definition namedTick (e : Event) : Prop :=
  match e with
  | Tick f => label f <> ""%string
  | Timeout _ _ => True
  end.

(** Two sessions that are equal, or differ in the release clock only
    while no letter has been committed since the Reset. *)
Definition sameButRelease (s1 s2 : Session) : Prop :=
  s1 = s2 \/ (lastEmittedLabelRef s2 = ""%string /\ exists r, s1 = withRelease r s2).

(** ** The dataset worker (backend) *)

(** A parsed JSON value; an object keeps its members in source order. *)
#[local] Unset Elimination Schemes.
Inductive Json : Type :=
| JNull
| JBool (b : bool)
| JNumber (q : Q)
| JString (t : string)
| JArray (items : list Json)
| JObject (members : list (string * Json)).
#[local] Set Elimination Schemes.

(** JavaScript truthiness of a JSON value. *)
Definition truthy (v : Json) : bool :=
  match v with
  | JNull => false
  | JBool b => b
  | JNumber q => negb (Qeq_bool q 0)
  | JString t => negb (String.eqb t "")
  | JArray _ => true
  | JObject _ => true
  end.

(** [body.k] for one of the member names the worker reads: the last
    member of that name of an object, [undefined] ([None]) on anything
    else. *)
Definition member (k : string) (body : Json) : option Json :=
  match body with
  | JObject ms =>
      fold_left (fun acc m => if String.eqb (fst m) k then Some (snd m) else acc) ms None
  | _ => None
  end.

(** [!(body && body.k)] fails, that is, [body.k] is there and truthy. *)
Definition hasField (k : string) (body : Json) : bool :=
  truthy body &&
  match member k body with
  | Some v => truthy v
  | None => false
  end.

Definition isDigit (c : ascii) : bool :=
  let n := N_of_ascii c in ((48 <=? n) && (n <=? 57))%N.

Fixpoint stripPrefix (p s : string) : option string :=
  match p, s with
  | EmptyString, _ => Some s
  | String a p', String b s' => if Ascii.eqb a b then stripPrefix p' s' else None
  | String _ _, EmptyString => None
  end.

(** The longest prefix of digits, and the rest. *)
Fixpoint spanDigits (s : string) : string * string :=
  match s with
  | EmptyString => (EmptyString, EmptyString)
  | String c r =>
      if isDigit c then (String c (fst (spanDigits r)), snd (spanDigits r))
      else (EmptyString, s)
  end.

(** [path.match(/^pre(\d+)suf$/)], for literal [pre] and a literal [suf]
    that does not start with a digit: the captured digits, if any. *)
Definition matchId (pre suf path : string) : option string :=
  match stripPrefix pre path with
  | Some r =>
      let (d, rest) := spanDigits r in
      if negb (String.eqb d "") && String.eqb rest suf then Some d else None
  | None => None
  end.

(** The integer a string of decimal digits denotes. *)
Fixpoint digitsAcc (acc : Z) (s : string) : Z :=
  match s with
  | EmptyString => acc
  | String c r => digitsAcc (10 * acc + (Z.of_N (N_of_ascii c) - 48)) r
  end.

Definition digitsValue (s : string) : Z := digitsAcc 0 s.

(** The double nearest to a natural number, a tie going to the even
    significand: exact up to 53 bits, beyond that rounded to 53
    significant bits, and Infinity from 2^1024 on. *)
Definition toDouble (n : Z) : number :=
  let bits := Z.log2 n + 1 in
  if bits <=? 53 then of_Z n
  else
    let sh := bits - 53 in
    let q := Z.shiftr n sh in
    let r := n - Z.shiftl q sh in
    let half := Z.shiftl 1 (sh - 1) in
    let q' := if (half <? r) || ((r =? half) && Z.odd q) then q + 1 else q in
    let v := Z.shiftl q' sh in
    if Z.shiftl 1 1024 <=? v then Infinity else of_Z v.

(** [Number(capture)] for a capture of [(\d+)]. *)
Definition NumberOfDigits (capture : string) : number :=
  toDouble (digitsValue capture).

(** What a request comes to before the database or the storage service
    is consulted; an id is the [Number(...)] of the digits the path
    had. *)
Inductive Action : Type :=
| Health
| InsertDataset
| SelectDatasets
| SelectDataset (dsId : number)
| PresignUpload (dsId : number)
| InsertSample (dsId : number)
| InsertJob
| SelectJob (jobId : number)
| Fail (message : string) (status : Z).

(** The dispatch of [fetch]: [requestMethod] is [request.method], [body]
    what [readJson] returns ([JNull] when the body does not parse). *)
Definition route (path requestMethod : string) (body : Json) : Action :=
  let method := toUpperCase requestMethod in
  if String.eqb path "/api/health" then Health
  else if String.eqb path "/api/datasets" then
    if String.eqb method "POST" then
      if hasField "name" body then InsertDataset else Fail "name is required" 422
    else if String.eqb method "GET" then SelectDatasets
    else Fail "Method not allowed" 405
  else
    match matchId "/api/datasets/" "" path with
    | Some id =>
        if String.eqb method "GET" then SelectDataset (NumberOfDigits id)
        else Fail "Method not allowed" 405
    | None =>
      match matchId "/api/datasets/" "/samples/presign" path, String.eqb method "POST" with
      | Some id, true => PresignUpload (NumberOfDigits id)
      | _, _ =>
        match matchId "/api/datasets/" "/samples" path, String.eqb method "POST" with
        | Some id, true =>
            if hasField "label" body && hasField "key" body then InsertSample (NumberOfDigits id)
            else Fail "label and key are required" 422
        | _, _ =>
          if String.eqb path "/api/retrain" && String.eqb method "POST" then
            if hasField "dataset_id" body then InsertJob
            else Fail "dataset_id is required" 422
          else
            match matchId "/api/training-jobs/" "" path, String.eqb method "GET" with
            | Some id, true => SelectJob (NumberOfDigits id)
            | _, _ => Fail "Not found" 404
            end
        end
      end
    end.

(** An action that writes to the database or asks the storage service
    for an upload address. *)
Definition writes (a : Action) : bool :=
  match a with
  | InsertDataset | PresignUpload _ | InsertSample _ | InsertJob => true
  | _ => false
  end.

(** An action that only reads the database. *)
Definition reads (a : Action) : bool :=
  match a with
  | SelectDatasets | SelectDataset _ | SelectJob _ => true
  | _ => false
  end.

Fixpoint allDigits (s : string) : bool :=
  match s with
  | EmptyString => true
  | String c r => isDigit c && allDigits r
  end.

Definition startsDigit (s : string) : bool :=
  match s with
  | EmptyString => false
  | String c _ => isDigit c
  end.

(** The id an action carries. *)
Definition boundId (a : Action) : option number :=
  match a with
  | SelectDataset n | PresignUpload n | InsertSample n | SelectJob n => Some n
  | _ => None
  end.

(** The path of the route of an action that carries an id, with
    [capture] for the digits. *)
Definition routePath (a : Action) (capture : string) : string :=
  match a with
  | SelectDataset _ => "/api/datasets/" +:+ capture
  | PresignUpload _ => "/api/datasets/" +:+ capture +:+ "/samples/presign"
  | InsertSample _ => "/api/datasets/" +:+ capture +:+ "/samples"
  | SelectJob _ => "/api/training-jobs/" +:+ capture
  | _ => ""
  end.

(** The members of the body an inserting action has required. *)
Definition requiredFields (a : Action) : list string :=
  match a with
  | InsertDataset => ["name"%string]
  | InsertSample _ => ["label"%string; "key"%string]
  | InsertJob => ["dataset_id"%string]
  | _ => []
  end.

(** The character class [a-zA-Z0-9._-] of the presign route. *)
Definition isSafeChar (c : ascii) : bool :=
  let n := N_of_ascii c in
  (((97 <=? n) && (n <=? 122)) || ((65 <=? n) && (n <=? 90)) || ((48 <=? n) && (n <=? 57))
   || (n =? 46) || (n =? 95) || (n =? 45))%N.

(** [filename.replace(/[^a-zA-Z0-9._-]/g, '_')]. *)
Fixpoint safeName (filename : string) : string :=
  match filename with
  | EmptyString => EmptyString
  | String c r => String (if isSafeChar c then c else "_"%char) (safeName r)
  end.

Fixpoint allSafe (s : string) : bool :=
  match s with
  | EmptyString => true
  | String c r => isSafeChar c && allSafe r
  end.

Fixpoint contains (c : ascii) (s : string) : bool :=
  match s with
  | EmptyString => false
  | String a r => Ascii.eqb a c || contains c r
  end.

(** Case analysis on the tests of [route]. *)
Ltac route_cases :=
  unfold route;
  repeat match goal with
         | |- context [if String.eqb ?a ?b then _ else _] =>
             destruct (String.eqb_spec a b)
         | |- context [if ?b then _ else _] => destruct b eqn:?
         | |- context [match matchId ?a ?b ?c with _ => _ end] =>
             destruct (matchId a b c) eqn:?
         | |- context [match String.eqb ?a ?b with _ => _ end] =>
             destruct (String.eqb_spec a b)
         end; simpl.

Ltac route_finish :=
  repeat match goal with
         | H : _ && _ = true |- _ => apply andb_prop in H as [? ?]
         end;
  repeat match goal with
         | H : String.eqb _ _ = true |- _ => apply String.eqb_eq in H
         end;
  try assumption; try congruence.

(** Every character of the string is in the ASCII range. *)
Fixpoint isAscii (s : string) : bool :=
  match s with
  | EmptyString => true
  | String c r => (N_of_ascii c <? 128)%N && isAscii r
  end.

Definition isLowerLetter (c : ascii) : bool :=
  let n := N_of_ascii c in ((97 <=? n) && (n <=? 122))%N.

(** Some character of the string is one of the letters a-z. *)
Fixpoint hasLowerLetter (s : string) : bool :=
  match s with
  | EmptyString => false
  | String c r => isLowerLetter c || hasLowerLetter r
  end.

(** Letter case folded away: A-Z go to a-z. *)
Definition lower_ascii (c : ascii) : ascii :=
  let n := N_of_ascii c in
  if ((65 <=? n) && (n <=? 90))%N then ascii_of_N (n + 32) else c.

Fixpoint foldCase (s : string) : string :=
  match s with
  | EmptyString => EmptyString
  | String c r => String (lower_ascii c) (foldCase r)
  end.

(** The threshold of a tick is the one of the store [c], as line 218
    reads it at every iteration. *)
Definition readsThreshold (c : Config) (e : Event) : Prop :=
  match e with
  | Tick f => thr f = threshold c
  | Timeout _ _ => True
  end.

(** The action with the outcome of its localStorage call set to [b]. *)
Definition withStored (b : bool) (o : TextOp) : TextOp :=
  match o with
  | AppendText t _ => AppendText t b
  | ResetText _ => ResetText b
  end.

(** The ticks "A" at 0.97 up to the commit at 600, then one tick below
    threshold at 1200: the release clock is left running. *)
Definition staleRelease : list Event :=
  endToEnd ++ [Tick (frameA (80 # 100) 1200)].

(** ** Comparison of JavaScript numbers *)

Lemma js_lt_not_ge a b : js_lt a b = true -> js_ge a b = false.
Proof.
  unfold js_lt, js_ge.
  destruct a, b; simpl; try discriminate; try reflexivity;
    intros H; apply negb_true_iff in H; exact H.
Qed.

Lemma js_le_of_Z a b : js_le (of_Z a) (of_Z b) = (a <=? b).
Proof.
  unfold of_Z; simpl. apply eq_true_iff_eq.
  rewrite Qle_bool_iff, <- Zle_Qle. symmetry. apply Z.leb_le.
Qed.


(** ** One iteration of the loop *)

Lemma loop_below f s :
  aboveThreshold f = false -> loop f s = (belowThreshold f s, None).
Proof. unfold loop, aboveThreshold. intros ->. reflexivity. Qed.

Lemma loop_above f s :
  aboveThreshold f = true ->
  loop f s = if shouldCommit f (track f s)
             then (commit f (track f s), Some (toUpperCase (label f)))
             else (track f s, None).
Proof. unfold loop, aboveThreshold. intros ->. reflexivity. Qed.

Lemma track_label f s : lastDetectedLabelRef (track f s) = label f.
Proof.
  unfold track. destruct (String.eqb_spec (lastDetectedLabelRef s) (label f)); simpl; auto.
Qed.

Lemma track_since f s :
  stableSinceRef (track f s) = dwellStart s (label f) (now f).
Proof.
  unfold track, dwellStart.
  destruct (String.eqb (lastDetectedLabelRef s) (label f)); reflexivity.
Qed.

Lemma track_same f s :
  lastDetectedLabelRef s = label f -> track f s = s.
Proof. unfold track. intros ->. rewrite String.eqb_refl. reflexivity. Qed.

Lemma track_frame f s :
  text (track f s) = text s /\
  lastEmittedLabelRef (track f s) = lastEmittedLabelRef s /\
  releaseStartRef (track f s) = releaseStartRef s /\
  letterGapTimerRef (track f s) = letterGapTimerRef s /\
  timers (track f s) = timers s /\
  nextTimerId (track f s) = nextTimerId s.
Proof.
  unfold track.
  destruct (String.eqb (lastDetectedLabelRef s) (label f)); simpl; auto 10.
Qed.

(** An iteration emits exactly when it is above threshold and the commit
    test passes on the tracked state. *)
Lemma loop_emits f s c :
  snd (loop f s) = Some c <->
  aboveThreshold f = true /\ shouldCommit f (track f s) = true /\ c = toUpperCase (label f).
Proof.
  unfold loop, aboveThreshold.
  destruct (js_ge (conf f) (thr f)); simpl.
  - destruct (shouldCommit f (track f s)); simpl; split.
    + intros [= <-]. auto.
    + intros (_ & _ & ->). reflexivity.
    + discriminate.
    + intros (_ & [=] & _).
  - split; [discriminate | intros ([=] & _)].
Qed.

Lemma loop_silent f s :
  snd (loop f s) = None <->
  aboveThreshold f = false \/ shouldCommit f (track f s) = false.
Proof.
  unfold loop, aboveThreshold.
  destruct (js_ge (conf f) (thr f)); simpl.
  - destruct (shouldCommit f (track f s)); simpl; split; auto.
    + discriminate.
    + intros [[=]|[=]].
  - split; auto.
Qed.

Lemma commit_fields f s :
  text (commit f s) = text s +:+ toUpperCase (label f) /\
  lastDetectedLabelRef (commit f s) = lastDetectedLabelRef s /\
  stableSinceRef (commit f s) = stableSinceRef s /\
  lastEmittedLabelRef (commit f s) = label f /\
  releaseStartRef (commit f s) = 0.
Proof. unfold commit; simpl; auto. Qed.

(** ** Traces: composition *)

Lemma exec_app tr1 tr2 s : exec (tr1 ++ tr2) s = exec tr2 (exec tr1 s).
Proof. revert s; induction tr1 as [|e tr1 IH]; intros s; simpl; auto. Qed.

Lemma emissions_app tr1 tr2 s :
  emissions (tr1 ++ tr2) s = emissions tr1 s ++ emissions tr2 (exec tr1 s).
Proof.
  revert s; induction tr1 as [|e tr1 IH]; intros s; simpl; auto.
  destruct e as [f|id t]; [destruct (snd _)|]; simpl; rewrite IH; reflexivity.
Qed.

Lemma boundaries_app tr1 tr2 s :
  boundaries (tr1 ++ tr2) s = boundaries tr1 s ++ boundaries tr2 (exec tr1 s).
Proof.
  revert s; induction tr1 as [|e tr1 IH]; intros s; simpl; auto.
  destruct e as [f|id t]; [|destruct (snd _)]; simpl; rewrite IH; reflexivity.
Qed.

Lemma emissions_tick_silent f tr s :
  snd (loop f s) = None ->
  emissions (Tick f :: tr) s = emissions tr (fst (loop f s)).
Proof. simpl. intros ->. reflexivity. Qed.

Lemma emissions_tick_emit f tr s c :
  snd (loop f s) = Some c ->
  emissions (Tick f :: tr) s = (now f, c) :: emissions tr (fst (loop f s)).
Proof. simpl. intros ->. reflexivity. Qed.

(** ** The timer callback leaves the gating refs alone *)

Lemma letterGapCallback_refs t s :
  let s' := fst (letterGapCallback t s) in
  lastDetectedLabelRef s' = lastDetectedLabelRef s /\
  stableSinceRef s' = stableSinceRef s /\
  lastEmittedLabelRef s' = lastEmittedLabelRef s /\
  releaseStartRef s' = releaseStartRef s /\
  letterGapTimerRef s' = letterGapTimerRef s /\
  timers s' = timers s /\
  nextTimerId s' = nextTimerId s.
Proof.
  unfold letterGapCallback.
  destruct (negb (String.eqb (text s) "") && negb (endsWith (text s) space));
    simpl; auto 10.
Qed.

Lemma fireTimer_refs id t s :
  let s' := fst (fireTimer id t s) in
  lastDetectedLabelRef s' = lastDetectedLabelRef s /\
  stableSinceRef s' = stableSinceRef s /\
  lastEmittedLabelRef s' = lastEmittedLabelRef s /\
  releaseStartRef s' = releaseStartRef s /\
  letterGapTimerRef s' = letterGapTimerRef s /\
  nextTimerId s' = nextTimerId s.
Proof.
  unfold fireTimer.
  destruct (timers s !! id) as [due|]; [|simpl; auto 10].
  destruct (due <=? t); [|simpl; auto 10].
  match goal with |- context [letterGapCallback t ?x] =>
    pose proof (letterGapCallback_refs t x) as H end.
  simpl in *. tauto.
Qed.

(** ** Held label after a commit: nothing more is committed *)

Lemma quiet_after_emit f s c :
  snd (loop f s) = Some c -> quiet (label f) (fst (loop f s)).
Proof.
  intros H. apply loop_emits in H as (Ha & Hc & _).
  rewrite loop_above, Hc by assumption. simpl. split; reflexivity.
Qed.

Lemma quiet_no_commit f s :
  quiet (label f) s -> shouldCommit f (track f s) = false.
Proof.
  intros [He Hr]. unfold shouldCommit, released.
  destruct (track_frame f s) as (_ & -> & -> & _).
  rewrite He, Hr, String.eqb_refl. reflexivity.
Qed.

Lemma quiet_step L e s :
  holdsLabel L e -> quiet L s ->
  quiet L (fst (step e s)) /\ (forall f, e = Tick f -> snd (step e s) = None).
Proof.
  intros He Hq. destruct e as [f|id t]; simpl in *.
  - destruct He as [<- Ha].
    rewrite loop_above, (quiet_no_commit f s Hq) by assumption. simpl.
    split; [|reflexivity].
    destruct Hq as [Hl Hr]. destruct (track_frame f s) as (_ & H1 & H2 & _).
    split; congruence.
  - split; [|discriminate].
    destruct Hq as [Hl Hr]. destruct (fireTimer_refs id t s) as (_ & _ & H1 & H2 & _).
    split; congruence.
Qed.

Lemma quiet_run L tr s :
  Forall (holdsLabel L) tr -> quiet L s ->
  emissions tr s = [] /\ quiet L (exec tr s).
Proof.
  intros Htr; revert s; induction Htr as [|e tr He Htr IH]; intros s Hq; simpl.
  - auto.
  - destruct (quiet_step L e s He Hq) as [Hq' Hs].
    destruct e as [f|id t].
    + simpl in *. rewrite (Hs f eq_refl). apply IH, Hq'.
    + apply IH, Hq'.
Qed.

(** ** Dwell: a run of ticks on one label *)

Lemma dwellStart_tracked s L t0 :
  lastDetectedLabelRef s = L -> dwellStart s L t0 = stableSinceRef s.
Proof. unfold dwellStart. intros ->. rewrite String.eqb_refl. reflexivity. Qed.

Lemma shouldCommit_track f s :
  shouldCommit f (track f s) =
  (negb (String.eqb (label f) (lastEmittedLabelRef s)) || released f s)
  && dwellReached (dwellStart s (label f) (now f)) f.
Proof.
  unfold shouldCommit, released, heldLongEnough, dwellReached.
  rewrite track_since.
  destruct (track_frame f s) as (_ & -> & -> & _). reflexivity.
Qed.

Lemma loop_tracking f s :
  aboveThreshold f = true ->
  lastDetectedLabelRef (fst (loop f s)) = label f /\
  stableSinceRef (fst (loop f s)) = dwellStart s (label f) (now f).
Proof.
  intros Ha. rewrite loop_above by assumption.
  destruct (shouldCommit f (track f s)); simpl;
    rewrite track_label, track_since; auto.
Qed.

(** While the dwell has not reached [holdMs], a tick on the tracked label
    changes nothing. *)
Lemma loop_waiting f s :
  aboveThreshold f = true ->
  lastDetectedLabelRef s = label f ->
  dwellReached (stableSinceRef s) f = false ->
  loop f s = (s, None).
Proof.
  intros Ha Hl Hd. rewrite loop_above by assumption.
  rewrite shouldCommit_track, dwellStart_tracked, Hd, andb_false_r by assumption.
  rewrite track_same by assumption. reflexivity.
Qed.

Lemma wait_tracked L pre s :
  lastDetectedLabelRef s = L ->
  Forall (reports L) pre ->
  Forall (fun g => dwellReached (stableSinceRef s) g = false) pre ->
  exec (map Tick pre) s = s /\ emissions (map Tick pre) s = [].
Proof.
  intros Hl Hrep; induction Hrep as [|g pre [Hg Ha] _ IH]; intros Hw; simpl; auto.
  inversion Hw as [|? ? Hd Hw']; subst.
  rewrite loop_waiting by (auto; congruence). simpl. auto.
Qed.

(** The dwell clock seen by a tick that follows a run [pre] of ticks on
    the same label: it still reads the start of the run. *)
Lemma since_after_run L pre f s t0 :
  Forall (reports L) pre -> label f = L ->
  t0 = match pre with [] => now f | g :: _ => now g end ->
  stableSinceRef (track f (exec (map Tick pre) s)) = dwellStart s L t0.
Proof.
  intros Hrep Hf. revert s t0.
  induction Hrep as [|g pre [Hg Ha] Hrep IH]; intros s t0 ->; simpl.
  - rewrite track_since, Hf. reflexivity.
  - destruct (loop_tracking g s Ha) as [Hl Hs].
    rewrite (IH _ (match pre with [] => now f | h :: _ => now h end) eq_refl).
    rewrite dwellStart_tracked by congruence. rewrite Hs, Hg. reflexivity.
Qed.

(** A run that has not reached its dwell leaves a session that differs
    from the first tick's tracked session in nothing the commit test
    reads. *)
Lemma wait_run L pre s t0 :
  Forall (reports L) pre ->
  t0 = match pre with [] => 0 | g :: _ => now g end ->
  Forall (fun g => dwellReached (dwellStart s L t0) g = false) pre ->
  emissions (map Tick pre) s = [] /\
  lastEmittedLabelRef (exec (map Tick pre) s) = lastEmittedLabelRef s /\
  releaseStartRef (exec (map Tick pre) s) = releaseStartRef s.
Proof.
  intros Hrep -> Hw. destruct Hrep as [|g pre [Hg Ha] Hrep]; simpl; auto.
  inversion Hw as [|? ? Hd Hw']; subst.
  assert (Hloop : loop g s = (track g s, None)).
  { rewrite loop_above, shouldCommit_track, Hd, andb_false_r by assumption.
    reflexivity. }
  rewrite Hloop; simpl.
  destruct (wait_tracked (label g) pre (track g s)) as [-> ->]; auto using track_label.
  - rewrite track_since. exact Hw'.
  - destruct (track_frame g s) as (_ & -> & -> & _). auto.
Qed.

Lemma reports_holds L fs :
  Forall (reports L) fs -> Forall (holdsLabel L) (map Tick fs).
Proof. induction 1; simpl; constructor; auto. Qed.

Lemma first_of_split (f0 : Frame) fs pre f post :
  f0 :: fs = pre ++ f :: post ->
  now f0 = match pre with [] => now f | g :: _ => now g end.
Proof. destruct pre; simpl; intros [= -> _]; reflexivity. Qed.

(** A run on one label commits exactly once, at the first tick whose
    dwell reaches [holdMs], provided the commit test's other half holds
    there. *)
Lemma run_commits_once (L : string) (f0 : Frame) (fs : list Frame) (s : Session)
    pre f post :
  Forall (reports L) (f0 :: fs) ->
  f0 :: fs = pre ++ f :: post ->
  Forall (fun g => dwellReached (dwellStart s L (now f0)) g = false) pre ->
  dwellReached (dwellStart s L (now f0)) f = true ->
  L <> lastEmittedLabelRef s \/ released f s = true ->
  snd (loop f (exec (map Tick pre) s)) = Some (toUpperCase L) /\
  emissions (map Tick (f0 :: fs)) s = [(now f, toUpperCase L)].
Proof.
  intros Hrun Hsplit Hwait Hreach Hfree.
  set (since := dwellStart s L (now f0)) in *.
  pose proof (first_of_split _ _ _ _ _ Hsplit) as Hfirst.
  rewrite Hsplit in Hrun |- *. apply Forall_app in Hrun as [Hpre Hrest].
  inversion Hrest as [|? ? [Hf Ha] Hpost]; subst.
  destruct (wait_run (label f) pre s
              (match pre with [] => 0 | g :: _ => now g end) Hpre eq_refl)
    as (Hnone & Hlast & Hrel).
  { destruct pre; [constructor|]. simpl in Hfirst.
    unfold since in Hwait. rewrite Hfirst in Hwait. exact Hwait. }
  pose proof (since_after_run (label f) pre f s (now f0) Hpre eq_refl Hfirst)
    as Hsince.
  set (s1 := exec (map Tick pre) s) in *.
  assert (Hcommit : shouldCommit f (track f s1) = true).
  { unfold shouldCommit, heldLongEnough, released.
    rewrite Hsince.
    destruct (track_frame f s1) as (_ & -> & -> & _).
    rewrite Hlast, Hrel. fold since. unfold dwellReached in Hreach.
    rewrite Hreach, andb_true_r.
    destruct Hfree as [Hne | Hr].
    - apply String.eqb_neq in Hne. rewrite Hne. reflexivity.
    - unfold released in Hr. rewrite Hr. apply orb_true_r. }
  assert (Hemit : snd (loop f s1) = Some (toUpperCase (label f))).
  { apply loop_emits; auto. }
  split; [exact Hemit|].
  rewrite map_app, emissions_app, Hnone. simpl map. fold s1.
  rewrite (emissions_tick_emit _ _ _ _ Hemit).
  destruct (quiet_run (label f) (map Tick post) (fst (loop f s1))) as [-> _].
  + apply reports_holds, Hpost.
  + eapply quiet_after_emit, Hemit.
  + reflexivity.
Qed.

(** C1 (minimum dwell).  In a run of ticks that all report [L] at or
    above threshold, started in any session, the dwell is counted from
    [since]; a tick whose dwell is below [holdMs] appends nothing; and if
    [L] differs from the last emitted label or a release has completed
    when the dwell first reaches [holdMs], the run commits exactly once,
    uppercase [L], at that tick.  With threshold 0.95 and holdMs 600,
    ticks at 0, 100, ..., 1000 on ("A", 0.97) commit "A" once, at 600. *)
Theorem minimum_dwell (L : string) (f0 : Frame) (fs : list Frame) (s : Session) :
  Forall (reports L) (f0 :: fs) ->
  let since := dwellStart s L (now f0) in
  (forall pre f post, f0 :: fs = pre ++ f :: post ->
     js_lt (of_Z (now f - since)) (holdMs f) = true ->
     snd (loop f (exec (map Tick pre) s)) = None)
  /\
  (forall pre f post, f0 :: fs = pre ++ f :: post ->
     Forall (fun g => dwellReached since g = false) pre ->
     dwellReached since f = true ->
     L <> lastEmittedLabelRef s \/ released f s = true ->
     snd (loop f (exec (map Tick pre) s)) = Some (toUpperCase L) /\
     emissions (map Tick (f0 :: fs)) s = [(now f, toUpperCase L)])
  /\
  emissions endToEnd (initial "") = [(600, "A"%string)].
Proof.
  intros Hrun since. split; [|split].
  - intros pre f post Hsplit Hlt.
    rewrite Hsplit in Hrun. apply Forall_app in Hrun as [Hpre Hrest].
    inversion Hrest as [|? ? [Hf Ha] _]; subst.
    apply loop_silent. right.
    unfold shouldCommit, heldLongEnough.
    rewrite (since_after_run (label f) pre f s (now f0))
      by (auto; eapply first_of_split; eassumption).
    fold since. rewrite (js_lt_not_ge _ _ Hlt). apply andb_false_r.
  - intros pre f post Hsplit Hwait Hreach Hfree.
    eapply run_commits_once; eassumption.
  - vm_compute. reflexivity.
Qed.

(** The end-to-end scenario, through the general statement. *)
Lemma minimum_dwell_witness :
  snd (loop (frameA (97 # 100) 600)
         (exec (map (fun t => Tick (frameA (97 # 100) t)) [0; 100; 200; 300; 400; 500])
            (initial ""))) = Some "A"%string /\
  emissions endToEnd (initial "") = [(600, "A"%string)].
Proof.
  pose proof (minimum_dwell "A" (frameA (97 # 100) 0)
    (map (frameA (97 # 100)) [100; 200; 300; 400; 500; 600; 700; 800; 900; 1000])
    (initial "")) as H.
  destruct H as (_ & H & _).
  - repeat constructor.
  - apply (H (map (frameA (97 # 100)) [0; 100; 200; 300; 400; 500])
             (frameA (97 # 100) 600)
             (map (frameA (97 # 100)) [700; 800; 900; 1000])).
    + reflexivity.
    + repeat constructor.
    + reflexivity.
    + left. discriminate.
Defined.

(** C2 (no duplicate without release).  Once a tick has committed a
    label, no later tick commits anything for as long as every tick
    reports that label at or above threshold, whatever the instants of
    those ticks and whichever timer callbacks run in between. *)
Theorem no_duplicate_without_release (f : Frame) (s : Session) (c : string)
    (tr : list Event) :
  snd (loop f s) = Some c ->
  Forall (holdsLabel (label f)) tr ->
  emissions tr (fst (loop f s)) = [].
Proof.
  intros Hemit Htr.
  apply (quiet_run (label f)); [exact Htr|].
  eapply quiet_after_emit, Hemit.
Qed.

Lemma no_duplicate_without_release_witness :
  emissions
    (Tick (frameA (97 # 100) 700) :: Timeout 1 3600 :: Tick (frameA 1 900000) :: [])
    (fst (loop (frameA (97 # 100) 600)
            (exec (map (fun t => Tick (frameA (97 # 100) t)) [0; 100; 200; 300; 400; 500])
               (initial "")))) = [].
Proof.
  apply (no_duplicate_without_release (frameA (97 # 100) 600) _ "A").
  - vm_compute. reflexivity.
  - repeat constructor.
Defined.

(** C7 (no sub-threshold commit).  A tick whose confidence is below the
    threshold appends nothing, clears the tracked label and its dwell
    clock, and starts the release clock at the current instant exactly
    when that clock was unset, leaving it as it was otherwise. *)
Theorem no_subthreshold_commit (f : Frame) (s : Session) :
  js_lt (conf f) (thr f) = true ->
  snd (loop f s) = None /\
  text (fst (loop f s)) = text s /\
  lastDetectedLabelRef (fst (loop f s)) = ""%string /\
  stableSinceRef (fst (loop f s)) = 0 /\
  lastEmittedLabelRef (fst (loop f s)) = lastEmittedLabelRef s /\
  (releaseStartRef s = 0 -> releaseStartRef (fst (loop f s)) = now f) /\
  (releaseStartRef s <> 0 -> releaseStartRef (fst (loop f s)) = releaseStartRef s).
Proof.
  intros Hlt. rewrite loop_below by (apply js_lt_not_ge, Hlt). simpl.
  repeat (split; [reflexivity|]). split.
  - intros ->. reflexivity.
  - intros Hne. apply Z.eqb_neq in Hne. rewrite Hne. reflexivity.
Qed.

Lemma no_subthreshold_commit_witness :
  snd (loop (frameA (80 # 100) 650) (exec endToEnd (initial ""))) = None /\
  lastDetectedLabelRef (fst (loop (frameA (80 # 100) 650) (exec endToEnd (initial "")))) = ""%string /\
  releaseStartRef (fst (loop (frameA (80 # 100) 650) (exec endToEnd (initial "")))) = 650.
Proof.
  destruct (no_subthreshold_commit (frameA (80 # 100) 650) (exec endToEnd (initial "")))
    as (H1 & _ & H2 & _ & _ & H3 & _).
  - reflexivity.
  - split; [exact H1|]. split; [exact H2|]. apply H3. reflexivity.
Defined.

(** ** Release: a run of ticks below threshold *)









(** ** Between two commits of one label *)

Lemma emissions_nil_cons e tr s :
  emissions (e :: tr) s = [] ->
  (forall f, e = Tick f -> loop f s = (track f s, None) \/
                           loop f s = (belowThreshold f s, None) /\ belowTick f) /\
  emissions tr (fst (step e s)) = [].
Proof.
  simpl. destruct e as [f|id t]; [|split; [discriminate | assumption]].
  intros H.
  assert (Hn : snd (loop f s) = None).
  { destruct (snd (loop f s)); [discriminate | reflexivity]. }
  rewrite Hn in H. split; [|exact H]. intros g [= <-].
  unfold belowTick. destruct (aboveThreshold f) eqn:Ha.
  - left. apply loop_silent in Hn as [Hb | Hc]; [congruence|].
    rewrite loop_above, Hc by assumption. reflexivity.
  - right. split; [apply loop_below, Ha | reflexivity].
Qed.

(** A step that commits nothing keeps the last emitted label, and keeps
    the release clock unless it is a tick below threshold that starts
    it. *)
Lemma silent_step_refs e tr s :
  emissions (e :: tr) s = [] ->
  lastEmittedLabelRef (fst (step e s)) = lastEmittedLabelRef s /\
  (releaseStartRef (fst (step e s)) = releaseStartRef s \/
   exists d, e = Tick d /\ belowTick d /\ releaseStartRef s = 0 /\
             releaseStartRef (fst (step e s)) = now d).
Proof.
  intros H. destruct (emissions_nil_cons _ _ _ H) as [Hs _].
  destruct e as [f|id t]; simpl.
  - destruct (Hs f eq_refl) as [-> | [-> Hb]]; simpl.
    + destruct (track_frame f s) as (_ & -> & -> & _). auto.
    + split; [reflexivity|].
      destruct (Z.eqb_spec (releaseStartRef s) 0) as [Hz|Hnz]; eauto 10.
  - destruct (fireTimer_refs id t s) as (_ & _ & -> & -> & _). auto.
Qed.

Lemma release_kept tr s :
  emissions tr s = [] -> releaseStartRef s <> 0 ->
  lastEmittedLabelRef (exec tr s) = lastEmittedLabelRef s /\
  releaseStartRef (exec tr s) = releaseStartRef s.
Proof.
  revert s; induction tr as [|e tr IH]; intros s Hnone Hnz; simpl; auto.
  destruct (silent_step_refs _ _ _ Hnone) as [Hl Hr].
  destruct (emissions_nil_cons _ _ _ Hnone) as [_ Hrest].
  assert (Hsame : releaseStartRef (fst (step e s)) = releaseStartRef s).
  { destruct Hr as [Hr | (d & _ & _ & Hz & _)]; [exact Hr | contradiction]. }
  destruct (IH _ Hrest) as [-> ->]; [congruence | auto].
Qed.

(** After a commit of [L] and up to the next commit: either no release
    clock is running, or it reads the instant of the first tick below
    threshold whose instant is not 0. *)
Lemma release_clock_origin L tr s :
  quiet L s -> emissions tr s = [] ->
  lastEmittedLabelRef (exec tr s) = L /\
  (releaseStartRef (exec tr s) = 0 \/
   exists m1 d m2, tr = m1 ++ Tick d :: m2 /\ belowTick d /\
     releaseStartRef (exec tr s) = now d /\
     forall g, In (Tick g) m1 -> belowTick g -> now g = 0).
Proof.
  revert s; induction tr as [|e tr IH]; intros s [Hl Hz] Hnone; simpl; auto.
  destruct (silent_step_refs _ _ _ Hnone) as [Hl' Hr].
  destruct (emissions_nil_cons _ _ _ Hnone) as [_ Hrest].
  destruct (Z.eq_dec (releaseStartRef (fst (step e s))) 0) as [Hz'|Hnz].
  - destruct (IH (fst (step e s))) as [Hlast Hclock]; [split; congruence | exact Hrest |].
    split; [exact Hlast|].
    destruct Hclock as [H0 | (m1 & d & m2 & -> & Hd & Hrs & Hm1)]; [auto|].
    right. exists (e :: m1), d, m2. repeat split; auto.
    intros g [-> | Hin] Hg; [|eauto].
    destruct Hr as [Hr | (d' & [= <-] & _ & _ & Hnow)]; [|congruence].
    destruct (emissions_nil_cons _ _ _ Hnone) as [Hs _].
    destruct (Hs g eq_refl) as [Hloop | [Hloop _]].
    + unfold loop in Hloop. unfold belowTick, aboveThreshold in Hg.
      rewrite Hg in Hloop. simpl in Hz'. unfold loop in Hz'. rewrite Hg in Hz'.
      simpl in Hz'. rewrite Hz in Hz'. exact Hz'.
    + simpl in Hz'. rewrite Hloop in Hz'. simpl in Hz'. rewrite Hz in Hz'. exact Hz'.
  - destruct Hr as [Hr | (d & -> & Hd & _ & Hnow)]; [congruence|].
    destruct (release_kept tr _ Hrest Hnz) as [Hlast Hrs].
    split; [congruence|].
    right. exists [], d, tr. repeat split; auto.
    + congruence.
    + intros g [].
Qed.

(** C3, as the code has it (release before a repeat).  Between two
    consecutive commits of the same label some tick is not at or above
    threshold, and the second commit comes at least [RELEASE_MS] after the
    first such tick (the first whose instant is not 0); nothing requires
    the confidence to stay below threshold in between. *)
Theorem release_before_repeat (f1 : Frame) (s : Session) (c1 : string)
    (mid : list Event) (f2 : Frame) (c2 : string) :
  snd (loop f1 s) = Some c1 ->
  emissions mid (fst (loop f1 s)) = [] ->
  snd (loop f2 (exec mid (fst (loop f1 s)))) = Some c2 ->
  label f2 = label f1 ->
  exists m1 d m2,
    mid = m1 ++ Tick d :: m2 /\
    aboveThreshold d = false /\
    0 < now d /\
    RELEASE_MS <= now f2 - now d /\
    (forall g, In (Tick g) m1 -> aboveThreshold g = false -> now g = 0).
Proof.
  intros H1 Hmid H2 Hlab.
  pose proof (quiet_after_emit f1 s c1 H1) as Hq.
  destruct (release_clock_origin (label f1) mid _ Hq Hmid) as [Hlast Hclock].
  set (s2 := exec mid (fst (loop f1 s))) in *.
  apply loop_emits in H2 as (_ & Hc & _).
  rewrite shouldCommit_track, Hlab, Hlast, String.eqb_refl in Hc. simpl in Hc.
  apply andb_prop in Hc as [Hrel _]. unfold released in Hrel.
  apply andb_prop in Hrel as [Hpos Hlen].
  apply Z.ltb_lt in Hpos. apply Z.leb_le in Hlen.
  destruct Hclock as [Hz | (m1 & d & m2 & Hsplit & Hd & Hrs & Hm1)]; [lia|].
  exists m1, d, m2. rewrite Hrs in Hpos, Hlen. auto.
Qed.

Lemma release_before_repeat_witness :
  exists m1 d m2,
    Tick (frameA (80 # 100) 650)
      :: map (fun t => Tick (frameA (97 # 100) t)) [700; 800; 900; 1000; 1100; 1200]
    = m1 ++ Tick d :: m2 /\
    aboveThreshold d = false /\ 0 < now d /\ RELEASE_MS <= 1300 - now d.
Proof.
  destruct (release_before_repeat (frameA (97 # 100) 600)
              (exec (map (fun t => Tick (frameA (97 # 100) t)) [0; 100; 200; 300; 400; 500])
                 (initial ""))
              "A"
              (Tick (frameA (80 # 100) 650)
                 :: map (fun t => Tick (frameA (97 # 100) t)) [700; 800; 900; 1000; 1100; 1200])
              (frameA (97 # 100) 1300) "A")
    as (m1 & d & m2 & H1 & H2 & H3 & H4 & _).
  - vm_compute. reflexivity.
  - vm_compute. reflexivity.
  - vm_compute. reflexivity.
  - reflexivity.
  - exists m1, d, m2. auto.
Defined.

(** C3 as stated fails: in [briefDip] "A" is committed at 600 and again
    at 1300, yet a single tick (at 650) is below threshold and no
    interval of 300 ms between the two commits is free of ticks at or
    above threshold. *)
Lemma continuous_release_counterexample :
  emissions briefDip (initial "") = [(600, "A"%string); (1300, "A"%string)] /\
  ~ releasedBetween (ticksOf briefDip) 600 1300.
Proof.
  split; [vm_compute; reflexivity|].
  intros (a & b & Ha & Hb & Hlen & Hall). unfold RELEASE_MS in Hlen.
  assert (Hno : forall t, In t [700; 800; 900; 1000; 1100; 1200] -> ~ a < t < b).
  { intros t Hin Hab.
    assert (Hf : In (frameA (97 # 100) t) (ticksOf briefDip)).
    { simpl in Hin. simpl.
      repeat (destruct Hin as [<- | Hin]; [tauto|]). contradiction. }
    specialize (Hall _ Hf Hab). vm_compute in Hall. discriminate. }
  pose proof (Hno 700). pose proof (Hno 800). pose proof (Hno 900).
  pose proof (Hno 1000). pose proof (Hno 1100). pose proof (Hno 1200).
  simpl in *. lia.
Qed.

(** ** The word-boundary callback *)

Lemma endsWith_append_space (t : string) : endsWith (t +:+ String space "") space = true.
Proof.
  induction t as [|a r IH]; [reflexivity|].
  simpl. destruct r; [reflexivity | exact IH].
Qed.

Lemma letterGapCallback_spec t s :
  (snd (letterGapCallback t s) = Some (String space "") /\
   text s <> ""%string /\ endsWith (text s) space = false /\
   text (fst (letterGapCallback t s)) = text s +:+ String space "")
  \/
  (snd (letterGapCallback t s) = None /\ fst (letterGapCallback t s) = s /\
   (text s = ""%string \/ endsWith (text s) space = true)).
Proof.
  unfold letterGapCallback.
  destruct (String.eqb_spec (text s) ""); simpl.
  - right. auto.
  - destruct (endsWith (text s) space); simpl; [right | left]; auto.
Qed.

Lemma fireTimer_spec id t s :
  (exists due, timers s !! id = Some due /\ due <= t /\
     snd (fireTimer id t s) = Some (String space "") /\
     text s <> ""%string /\ endsWith (text s) space = false /\
     text (fst (fireTimer id t s)) = text s +:+ String space "" /\
     timers (fst (fireTimer id t s)) = delete id (timers s))
  \/
  (snd (fireTimer id t s) = None /\ text (fst (fireTimer id t s)) = text s /\
   (sealedText s \/ timers s !! id = None \/
    exists due, timers s !! id = Some due /\ t < due)).
Proof.
  unfold fireTimer, sealedText.
  destruct (timers s !! id) as [due|] eqn:Hid; [|right; auto].
  destruct (Z.leb_spec due t) as [Hdue|Hnot]; [|right; eauto 10].
  match goal with |- context [letterGapCallback t ?x] =>
    destruct (letterGapCallback_spec t x) as [(H1 & H2 & H3 & H4) | (H1 & H2 & H3)];
    pose proof (letterGapCallback_refs t x) as Hrefs
  end; simpl in *.
  - left. exists due. destruct Hrefs as (_ & _ & _ & _ & _ & Htm & _). auto 10.
  - right. rewrite H2. simpl. auto.
Qed.

Lemma silent_step_text e tr s :
  emissions (e :: tr) s = [] ->
  text (fst (step e s)) = text s \/
  exists id t, e = Timeout id t /\ snd (step e s) = Some (String space "") /\
               text (fst (step e s)) = text s +:+ String space "".
Proof.
  intros H. destruct (emissions_nil_cons _ _ _ H) as [Hs _].
  destruct e as [f|id t]; simpl.
  - left. destruct (Hs f eq_refl) as [-> | [-> _]]; simpl; [|reflexivity].
    destruct (track_frame f s) as (-> & _). reflexivity.
  - destruct (fireTimer_spec id t s) as [(due & _ & _ & Ho & _ & _ & Ht & _) | (_ & Ht & _)];
      eauto 10.
Qed.

Lemma sealed_no_boundary tr s :
  sealedText s -> emissions tr s = [] -> boundaries tr s = [].
Proof.
  revert s; induction tr as [|e tr IH]; intros s Hsealed Hnone; [reflexivity|].
  destruct (emissions_nil_cons _ _ _ Hnone) as [Hs Hrest].
  destruct e as [f|id t].
  - simpl. destruct (snd (loop f s)) eqn:Ho.
    + destruct (Hs f eq_refl) as [Hl | [Hl _]]; rewrite Hl in Ho; discriminate.
    + apply IH; [|exact Hrest].
      destruct (silent_step_text _ _ _ Hnone) as [Ht | (? & ? & [=] & _)].
      unfold sealedText. simpl in Ht. rewrite Ht. exact Hsealed.
  - simpl.
    destruct (fireTimer_spec id t s)
      as [(due & _ & _ & _ & Hne & Hends & _) | (Ho & Ht & _)].
    + destruct Hsealed as [He | He]; congruence.
    + rewrite Ho. apply IH; [|exact Hrest].
      unfold sealedText. rewrite Ht. exact Hsealed.
Qed.

Lemma gap_one_boundary tr s :
  emissions tr s = [] -> (length (boundaries tr s) <= 1)%nat.
Proof.
  revert s; induction tr as [|e tr IH]; intros s Hnone; [simpl; lia|].
  destruct (emissions_nil_cons _ _ _ Hnone) as [Hs Hrest].
  destruct e as [f|id t].
  - simpl. destruct (snd (loop f s)) eqn:Ho.
    + destruct (Hs f eq_refl) as [Hl | [Hl _]]; rewrite Hl in Ho; discriminate.
    + apply IH, Hrest.
  - simpl.
    destruct (fireTimer_spec id t s)
      as [(due & _ & _ & Ho & _ & _ & Ht & _) | (Ho & _)]; rewrite Ho.
    + rewrite (sealed_no_boundary tr); [simpl; lia | | exact Hrest].
      right. simpl in Ht |- *. rewrite Ht. apply endsWith_append_space.
    + apply IH, Hrest.
Qed.

Lemma upper_ascii_space (a : ascii) :
  Ascii.eqb (upper_ascii a) space = Ascii.eqb a space.
Proof. destruct a as [[] [] [] [] [] [] [] []]; reflexivity. Qed.

Lemma startsWith_toUpperCase (l : string) :
  startsWith (toUpperCase l) space = startsWith l space.
Proof. destruct l; simpl; [reflexivity | apply upper_ascii_space]. Qed.

Lemma startsWith_append (a b : string) (c : ascii) :
  startsWith (a +:+ b) c = match a with EmptyString => startsWith b c | _ => startsWith a c end.
Proof. destruct a; reflexivity. Qed.

Lemma loop_text f s :
  text (fst (loop f s)) = text s \/
  text (fst (loop f s)) = text s +:+ toUpperCase (label f).
Proof.
  unfold loop. destruct (js_ge (conf f) (thr f)); [|left; reflexivity].
  destruct (track_frame f s) as (Ht & _).
  destruct (shouldCommit f (track f s)); simpl; rewrite Ht; auto.
Qed.

(** From a text that does not start with a space, with labels that do
    not either, the text never comes to start with a space. *)
Lemma text_head_not_space tr s :
  startsWith (text s) space = false ->
  Forall trimmedTick tr ->
  startsWith (text (exec tr s)) space = false.
Proof.
  intros Hs Htr; revert s Hs; induction Htr as [|e tr He _ IH]; intros s Hs; [exact Hs|].
  simpl. apply IH. destruct e as [f|id t]; simpl.
  - destruct (loop_text f s) as [-> | ->]; [exact Hs|].
    rewrite startsWith_append. destruct (text s); [|exact Hs].
    simpl in He. rewrite startsWith_toUpperCase. exact He.
  - destruct (fireTimer_spec id t s)
      as [(due & _ & _ & _ & Hne & _ & -> & _) | (_ & -> & _)]; [|exact Hs].
    rewrite startsWith_append. destruct (text s); [congruence | exact Hs].
Qed.

(** C5 (boundary insertion is idempotent per gap).  A firing timer
    appends only a single space, and only to a text that is non-empty and
    does not end with a space, so the space lands after the first
    character and never next to another space; otherwise the text is
    left as it is; in a stretch of a trace in which no tick commits, at
    most one space is inserted; and a text that does not start with a
    space never comes to start with one, the labels being trimmed. *)
Theorem boundary_insertion_idempotent :
  (forall id t s o, snd (fireTimer id t s) = Some o ->
     o = String space "" /\
     text s <> ""%string /\
     endsWith (text s) space = false /\
     exists a r, text s = String a r /\
                 text (fst (fireTimer id t s)) = String a (r +:+ String space "")) /\
  (forall id t s, snd (fireTimer id t s) = None ->
     text (fst (fireTimer id t s)) = text s) /\
  (forall tr s, emissions tr s = [] -> (length (boundaries tr s) <= 1)%nat) /\
  (forall tr s, startsWith (text s) space = false -> Forall trimmedTick tr ->
     startsWith (text (exec tr s)) space = false).
Proof.
  split; [|split; [|split]]; [| | |apply text_head_not_space].
  - intros id t s o Ho.
    destruct (fireTimer_spec id t s)
      as [(due & _ & _ & Hs & Hne & Hends & Ht & _) | (Hn & _)]; [|congruence].
    rewrite Hs in Ho. injection Ho as <-.
    repeat (split; [assumption || reflexivity|]).
    destruct (text s) as [|a r] eqn:Htext; [congruence|].
    exists a, r. split; [reflexivity|]. rewrite Ht. reflexivity.
  - intros id t s Hn.
    destruct (fireTimer_spec id t s)
      as [(due & _ & _ & Hs & _) | (_ & Ht & _)]; [congruence | exact Ht].
  - apply gap_one_boundary.
Qed.

Lemma boundary_insertion_idempotent_witness :
  (length (boundaries
             [Timeout 1 3600; Tick (frameA (80 # 100) 3650); Timeout 1 3700; Timeout 2 7000]
             (exec endToEnd (initial ""))) <= 1)%nat /\
  text (fst (fireTimer 1 3600 (exec endToEnd (initial "")))) = "A "%string.
Proof.
  destruct boundary_insertion_idempotent as (H1 & _ & H3 & _).
  split.
  - apply H3. vm_compute. reflexivity.
  - destruct (H1 1 3600 (exec endToEnd (initial "")) (String space ""))
      as (_ & _ & _ & a & r & Ha & Hr).
    + vm_compute. reflexivity.
    + vm_compute. reflexivity.
Defined.

(** ** The pending word-boundary timer *)

Lemma commit_timers latest f s :
  timerInv latest s ->
  letterGapTimerRef (commit f (track f s)) = Some (nextTimerId s) /\
  timers (commit f (track f s)) = {[ nextTimerId s := now f + LETTER_GAP_MS ]} /\
  nextTimerId (commit f (track f s)) = nextTimerId s + 1.
Proof.
  intros (Hnext & Hid & Htm).
  destruct (track_frame f s) as (_ & _ & _ & Href & Htimers & Hn).
  unfold commit, clearLetterGapTimer; simpl. rewrite Href, Htimers, Hn.
  split; [reflexivity|]. split; [|reflexivity].
  rewrite <- insert_empty. f_equal.
  destruct Htm as [-> | (id & tc & c & _ & Hr & ->)].
  - destruct (letterGapTimerRef s) as [id|]; [|reflexivity].
    destruct (id =? 0); [reflexivity | apply delete_empty].
  - rewrite Hr. destruct (Z.eqb_spec id 0) as [Hz|_].
    + exfalso. exact (Hid id Hr Hz).
    + apply delete_singleton_eq.
Qed.

Lemma fireTimer_timers id t s :
  timers (fst (fireTimer id t s)) = timers s \/
  exists due, timers s !! id = Some due /\ due <= t /\
              timers (fst (fireTimer id t s)) = delete id (timers s).
Proof.
  unfold fireTimer.
  destruct (timers s !! id) as [due|] eqn:Hid; [|auto].
  destruct (Z.leb_spec due t) as [Hdue|Hnot]; [|auto].
  right. exists due.
  match goal with |- context [letterGapCallback t ?x] =>
    destruct (letterGapCallback_refs t x) as (_ & _ & _ & _ & _ & -> & _)
  end. auto.
Qed.

Lemma timerInv_step latest e s :
  timerInv latest s ->
  timerInv (last (match latest with Some x => [x] | None => [] end ++ emissions [e] s))
           (fst (step e s)).
Proof.
  intros Hinv. pose proof Hinv as (Hnext & Hid & Htm).
  destruct e as [f|id t]; simpl.
  - change (fst (step (Tick f) s)) with (fst (loop f s)).
    destruct (aboveThreshold f) eqn:Ha.
    + rewrite loop_above by assumption.
      destruct (shouldCommit f (track f s)) eqn:Hc; cbn [fst snd].
      * destruct (commit_timers latest f s Hinv) as (Hr & Ht & Hn).
        rewrite last_snoc. unfold timerInv. rewrite Hr, Ht, Hn.
        split; [lia|]. split.
        -- intros id [= <-]. lia.
        -- right. eauto 10.
      * rewrite app_nil_r.
        destruct (track_frame f s) as (_ & _ & _ & Href & Htimers & Hn).
        unfold timerInv. rewrite Href, Htimers, Hn.
        destruct latest; exact Hinv.
    + rewrite loop_below by assumption. cbn [fst snd].
      rewrite app_nil_r. destruct latest; exact Hinv.
  - rewrite app_nil_r.
    destruct (fireTimer_refs id t s) as (_ & _ & _ & _ & Href & Hn).
    assert (Hlatest : last match latest with Some x => [x] | None => [] end = latest)
      by (destruct latest; reflexivity).
    rewrite Hlatest. unfold timerInv. rewrite Href, Hn.
    split; [exact Hnext|]. split; [exact Hid|].
    destruct (fireTimer_timers id t s) as [-> | (due & Hlook & _ & ->)]; [exact Htm|].
    left. destruct Htm as [-> | (id0 & tc & c & _ & _ & Hs)]; [apply delete_empty|].
    rewrite Hs in Hlook |- *.
    apply lookup_singleton_Some in Hlook as [-> _]. apply delete_singleton_eq.
Qed.

Lemma timerInv_reachable savedText tr :
  timerInv (last (emissions tr (initial savedText))) (exec tr (initial savedText)).
Proof.
  induction tr as [|e tr IH] using rev_ind.
  - unfold timerInv; simpl. split; [lia|]. split; [discriminate | left; reflexivity].
  - rewrite exec_app, emissions_app. simpl exec.
    apply (timerInv_step _ e) in IH.
    set (l := emissions tr (initial savedText)) in *.
    set (s := exec tr (initial savedText)) in *.
    assert (Heq : last (match last l with Some x => [x] | None => [] end ++ emissions [e] s)
                  = last (l ++ emissions [e] s)).
    { destruct (emissions [e] s) as [|x r] eqn:He.
      - rewrite !app_nil_r. destruct (last l); reflexivity.
      - assert (Hr : r = []).
        { simpl in He. destruct e as [f|id t]; [|discriminate].
          destruct (snd (loop f s)); [|discriminate]. congruence. }
        subst r. rewrite !last_snoc. reflexivity. }
    rewrite <- Heq. exact IH.
Qed.

(** C6 (boundary cancellation and rescheduling).  In every session
    reached from the initial one, a tick that commits leaves exactly one
    pending timer, due [LETTER_GAP_MS] = 3000 ms after that tick, whatever
    was pending before; and a timer that fires and appends a space is
    the one armed by the latest commit, firing no earlier than 3000 ms
    after it, and leaves no timer pending. *)
Theorem boundary_rescheduling (savedText : string) (tr : list Event) :
  LETTER_GAP_MS = 3000 /\
  (forall f c, snd (loop f (exec tr (initial savedText))) = Some c ->
     exists id,
       letterGapTimerRef (fst (loop f (exec tr (initial savedText)))) = Some id /\
       timers (fst (loop f (exec tr (initial savedText))))
         = {[ id := now f + LETTER_GAP_MS ]}) /\
  (forall id t o, snd (fireTimer id t (exec tr (initial savedText))) = Some o ->
     exists tc c,
       last (emissions tr (initial savedText)) = Some (tc, c) /\
       timers (exec tr (initial savedText)) !! id = Some (tc + LETTER_GAP_MS) /\
       tc + LETTER_GAP_MS <= t /\
       timers (fst (fireTimer id t (exec tr (initial savedText)))) = ∅).
Proof.
  pose proof (timerInv_reachable savedText tr) as Hinv.
  set (s := exec tr (initial savedText)) in *.
  split; [reflexivity|]. split.
  - intros f c Hemit. apply loop_emits in Hemit as (Ha & Hc & _).
    rewrite loop_above, Hc by assumption. cbn [fst].
    destruct (commit_timers _ f s Hinv) as (Hr & Ht & _). eauto.
  - intros id t o Ho.
    destruct (fireTimer_spec id t s)
      as [(due & Hlook & Hdue & _ & _ & _ & _ & Htm) | (Hn & _)]; [|congruence].
    destruct Hinv as (_ & _ & [Hempty | (id0 & tc & c & Hlast & _ & Hs)]).
    + rewrite Hempty, lookup_empty in Hlook. discriminate.
    + rewrite Hs in Hlook. pose proof Hlook as Hlook'.
      apply lookup_singleton_Some in Hlook' as [-> <-].
      exists tc, c. rewrite Htm, Hs.
      repeat split; auto. apply delete_singleton_eq.
Qed.

Lemma boundary_rescheduling_witness :
  (exists id,
     timers (fst (loop (frameA (97 # 100) 2000)
                    (exec (endToEnd ++ [Tick (frameA (80 # 100) 1200); Tick (frameA (97 # 100) 1300)]) (initial ""))))
     = {[ id := 2000 + LETTER_GAP_MS ]}) /\
  exists tc c,
    last (emissions endToEnd (initial "")) = Some (tc, c) /\ tc + LETTER_GAP_MS <= 3600.
Proof.
  split.
  - destruct (boundary_rescheduling "" (endToEnd ++ [Tick (frameA (80 # 100) 1200); Tick (frameA (97 # 100) 1300)]))
      as (_ & H & _).
    destruct (H (frameA (97 # 100) 2000) "A"%string) as (id & _ & Hid).
    + vm_compute. reflexivity.
    + exists id. exact Hid.
  - destruct (boundary_rescheduling "" endToEnd) as (_ & _ & H).
    destruct (H 1 3600 (String space "")) as (tc & c & Hl & _ & Hle & _).
    + vm_compute. reflexivity.
    + exists tc, c. auto.
Defined.

(** ** What is handed to appendText *)

Lemma toUpperCase_length (l : string) :
  String.length (toUpperCase l) = String.length l.
Proof. induction l as [|a r IH]; simpl; congruence. Qed.

Lemma upper_ascii_not_lower (a : ascii) : isLowerLetter (upper_ascii a) = false.
Proof. destruct a as [[] [] [] [] [] [] [] []]; reflexivity. Qed.

Lemma lower_upper_ascii (a : ascii) : lower_ascii (upper_ascii a) = lower_ascii a.
Proof. destruct a as [[] [] [] [] [] [] [] []]; reflexivity. Qed.

Lemma toUpperCase_no_lower (l : string) : hasLowerLetter (toUpperCase l) = false.
Proof.
  induction l as [|a r IH]; [reflexivity|].
  simpl. rewrite upper_ascii_not_lower, IH. reflexivity.
Qed.

Lemma foldCase_toUpperCase (l : string) : foldCase (toUpperCase l) = foldCase l.
Proof.
  induction l as [|a r IH]; [reflexivity|].
  simpl. rewrite lower_upper_ascii, IH. reflexivity.
Qed.

(** C8, as the code has it (payload of appendText).  Whatever the labels,
    a string handed to [appendText] at a tick is the upper-cased label of
    that tick, and a string handed over by a timer callback is a single
    space.  When the label is made of ASCII characters, the upper-cased
    label has the length of the label (one character exactly when the
    label is one character), has none of the letters a-z in it, and is
    the label up to the case of its letters. *)
Theorem payload_shape (tr : list Event) (s : Session) (i : nat) (o : string) :
  outputs tr s !! i = Some (Some o) ->
  (exists f, tr !! i = Some (Tick f) /\
             o = toUpperCase (label f) /\
             (isAscii (label f) = true ->
              String.length o = String.length (label f) /\
              hasLowerLetter o = false /\
              foldCase o = foldCase (label f))) \/
  (exists id t, tr !! i = Some (Timeout id t) /\ o = String space "").
Proof.
  revert s i; induction tr as [|e tr IH]; intros s i Hi; [destruct i; discriminate|].
  destruct i as [|i]; [|exact (IH _ _ Hi)].
  simpl in Hi. injection Hi as Hi.
  destruct e as [f|id t]; simpl in Hi.
  - left. exists f. apply loop_emits in Hi as (_ & _ & ->).
    split; [reflexivity|]. split; [reflexivity|]. intros _.
    auto using toUpperCase_length, toUpperCase_no_lower, foldCase_toUpperCase.
  - right. exists id, t. split; [reflexivity|].
    destruct (fireTimer_spec id t s) as [(due & _ & _ & Ho & _) | (Hn & _)]; congruence.
Qed.

Lemma payload_shape_witness :
  exists f, label f = "del"%string /\
            String.length (toUpperCase (label f)) = 3%nat /\
            hasLowerLetter (toUpperCase (label f)) = false.
Proof.
  destruct (payload_shape [Tick (frameDel 0); Tick (frameDel 600)] (initial "") 1 "DEL")
    as [(f & Hf & Ho & Hshape) | (id & t & Hf & _)].
  - vm_compute. reflexivity.
  - vm_compute in Hf. injection Hf as <-.
    destruct Hshape as (Hlen & Hlow & _); [reflexivity|].
    exists (frameDel 600). split; [reflexivity|]. split; [exact Hlen | exact Hlow].
  - vm_compute in Hf. discriminate.
Defined.

(** C8 as stated fails: a class named "del", held for 600 ms, has "DEL"
    handed to [appendText], which is three characters long. *)
Lemma payload_shape_counterexample :
  outputs [Tick (frameDel 0); Tick (frameDel 600)] (initial "")
    = [None; Some "DEL"%string] /\
  ~ (forall tr o, In (Some o) (outputs tr (initial "")) -> String.length o = 1%nat).
Proof.
  split; [vm_compute; reflexivity|].
  intros H.
  specialize (H [Tick (frameDel 0); Tick (frameDel 600)] "DEL"%string).
  assert (Hlen : String.length "DEL" = 1%nat); [|discriminate].
  apply H. vm_compute. auto.
Qed.

(** ** The tracked label and its dwell clock *)

(** C9, as the code has it (tracking invariant).  In every session
    reached from the initial one by ticks whose instants are not 0 and
    whose labels, when at or above threshold, are not empty (timer
    callbacks in between), [stableSinceRef] is non-zero exactly when
    [lastDetectedLabelRef] is non-empty. *)
Theorem tracking_invariant (savedText : string) (tr : list Event) :
  Forall properTick tr ->
  stableSinceRef (exec tr (initial savedText)) <> 0 <->
  lastDetectedLabelRef (exec tr (initial savedText)) <> ""%string.
Proof.
  intros Htr.
  assert (Hgen : forall s,
    (stableSinceRef s <> 0 <-> lastDetectedLabelRef s <> ""%string) ->
    (stableSinceRef (exec tr s) <> 0 <-> lastDetectedLabelRef (exec tr s) <> ""%string)).
  { induction Htr as [|e tr He _ IH]; intros s Hs; [exact Hs|].
    simpl. apply IH. destruct e as [f|id t]; simpl.
    - destruct He as [Hnow Hlab]. destruct (aboveThreshold f) eqn:Ha.
      + destruct (loop_tracking f s Ha) as [-> ->]. specialize (Hlab eq_refl).
        split; [auto|]. intros _. unfold dwellStart.
        destruct (String.eqb_spec (lastDetectedLabelRef s) (label f)) as [He|_];
          [|exact Hnow].
        apply Hs. congruence.
      + rewrite loop_below by assumption. simpl. tauto.
    - destruct (fireTimer_refs id t s) as (-> & -> & _). exact Hs. }
  apply Hgen. simpl. tauto.
Qed.

Lemma tracking_invariant_witness :
  stableSinceRef (exec doubledLetter_tail (initial "")) <> 0 <->
  lastDetectedLabelRef (exec doubledLetter_tail (initial "")) <> ""%string.
Proof.
  apply tracking_invariant.
  repeat (constructor; [split; [discriminate | intros _; discriminate]|]).
  constructor.
Defined.

(** C9 as stated fails: while "A" is tracked, a tick at or above
    threshold whose label is the empty string leaves the tracked label
    empty and the dwell clock at the instant of that tick. *)
Lemma tracking_invariant_counterexample :
  lastDetectedLabelRef (exec emptyLabelTrace (initial "")) = ""%string /\
  stableSinceRef (exec emptyLabelTrace (initial "")) = 200 /\
  ~ (stableSinceRef (exec emptyLabelTrace (initial "")) <> 0 <->
     lastDetectedLabelRef (exec emptyLabelTrace (initial "")) <> ""%string).
Proof.
  split; [reflexivity|]. split; [reflexivity|].
  intros [H _]. apply H; [discriminate | reflexivity].
Qed.

(** ** The clamping setters *)

Lemma Qle_bool_reflect (x y : Q) : reflect (x <= y)%Q (Qle_bool x y).
Proof. apply iff_reflect. symmetry. apply Qle_bool_iff. Qed.

(** [Math.min(b, Math.max(a, v))] is [v] clamped to [a, b], for [a < b]
    and any [v] but NaN. *)
Lemma min_max_clamp (a b : Q) (v : number) :
  (a < b)%Q -> isNaN v = false ->
  Math_min (Num b) (Math_max (Num a) v) = clampTo (Num a) (Num b) v /\
  inRange (Num a) (Num b) (clampTo (Num a) (Num b) v) = true.
Proof.
  intros Hab Hv. unfold clampTo, inRange, Math_min, Math_max.
  destruct v as [| | |q]; try discriminate; simpl;
    repeat match goal with
           | |- context [Qle_bool ?x ?y] => destruct (Qle_bool_reflect x y); simpl
           end;
    try (split; reflexivity); lra.
Qed.

Lemma round_not_NaN (ms : number) : isNaN ms = false -> isNaN (Math_round ms) = false.
Proof. destruct ms; simpl; auto. Qed.

Lemma round_nearest (q : Q) :
  (inject_Z (Qfloor (q + (1 # 2))) - (1 # 2) <= q
   /\ q < inject_Z (Qfloor (q + (1 # 2))) + (1 # 2))%Q.
Proof.
  pose proof (Qfloor_le (q + (1 # 2))) as Hlo.
  pose proof (Qlt_floor (q + (1 # 2))) as Hhi.
  rewrite inject_Z_plus in Hhi. change (inject_Z 1) with 1%Q in Hhi.
  split; lra.
Qed.

Lemma clamp_of_Z (lo hi n : Z) :
  lo <= hi ->
  clampTo (of_Z lo) (of_Z hi) (of_Z n) = of_Z (Z.min hi (Z.max lo n)).
Proof.
  intros Hle. unfold clampTo. rewrite !js_le_of_Z.
  destruct (Z.leb_spec hi n), (Z.leb_spec lo n); f_equal; lia.
Qed.

Lemma holdMs_integral (ms : number) :
  isNaN ms = false ->
  exists z, clampTo (of_Z 200) (of_Z 1200) (Math_round ms) = of_Z z /\ 200 <= z <= 1200.
Proof.
  destruct ms as [| | |q]; try discriminate; intros _.
  - exists 200. split; [reflexivity | lia].
  - exists 1200. split; [reflexivity | lia].
  - exists (Z.min 1200 (Z.max 200 (Qfloor (q + (1 # 2))))).
    split; [apply (clamp_of_Z 200 1200); lia | lia].
Qed.

Lemma setThreshold_inRange v c :
  isNaN v = false ->
  threshold (setThreshold v c) = clampTo (Num (7 # 10)) (Num 1) v /\
  inRange (Num (7 # 10)) (Num 1) (threshold (setThreshold v c)) = true.
Proof.
  intros Hv. destruct (min_max_clamp (7 # 10) 1 v) as [Heq Hin]; [lra | exact Hv |].
  change (threshold (setThreshold v c))
    with (Math_min (Num 1) (Math_max (Num (7 # 10)) v)).
  rewrite Heq. auto.
Qed.

Lemma setHoldMs_inRange ms c :
  isNaN ms = false ->
  cfgHoldMs (setHoldMs ms c) = clampTo (of_Z 200) (of_Z 1200) (Math_round ms) /\
  inRange (of_Z 200) (of_Z 1200) (cfgHoldMs (setHoldMs ms c)) = true.
Proof.
  intros Hv.
  destruct (min_max_clamp (inject_Z 200) (inject_Z 1200) (Math_round ms)) as [Heq Hin];
    [reflexivity | apply round_not_NaN, Hv |].
  change (cfgHoldMs (setHoldMs ms c))
    with (Math_min (Num (inject_Z 1200)) (Math_max (Num (inject_Z 200)) (Math_round ms))).
  unfold of_Z. rewrite Heq. auto.
Qed.

Lemma config_inRange_ops ops c :
  Forall (fun o => isNaN (opArg o) = false) ops ->
  inRange (Num (7 # 10)) (Num 1) (threshold c) = true ->
  inRange (of_Z 200) (of_Z 1200) (cfgHoldMs c) = true ->
  inRange (Num (7 # 10)) (Num 1) (threshold (applyOps ops c)) = true /\
  inRange (of_Z 200) (of_Z 1200) (cfgHoldMs (applyOps ops c)) = true.
Proof.
  intros Hops; revert c; induction Hops as [|o ops Ho _ IH]; intros c Ht Hh; [auto|].
  change (applyOps (o :: ops) c) with (applyOps ops (applyOp o c)).
  apply IH; destruct o as [v|ms]; cbn [opArg applyOp] in Ho |- *.
  - apply setThreshold_inRange, Ho.
  - exact Ht.
  - exact Hh.
  - apply (setHoldMs_inRange ms c), Ho.
Qed.

(** C10, as the code has it (configuration clamping).  For every input
    but NaN, [setThreshold v] stores [v] clamped to [0.70, 1.00] and
    [setHoldMs ms] stores the nearest integer of [ms] (a tie going up)
    clamped to [200, 1200]; 0.5 gives 0.70, 1.5 gives 1.00, 50 gives 200
    and 5000 gives 1200; and from the initial values (0.95, 600), any
    sequence of calls of the two setters with arguments other than NaN
    keeps both values within their ranges. *)
Theorem configuration_clamping (v ms : number) (c : Config) (ops : list ConfigOp) :
  isNaN v = false ->
  isNaN ms = false ->
  Forall (fun o => isNaN (opArg o) = false) ops ->
  (threshold (setThreshold v c) = clampTo (Num (7 # 10)) (Num 1) v /\
   inRange (Num (7 # 10)) (Num 1) (threshold (setThreshold v c)) = true /\
   cfgHoldMs (setThreshold v c) = cfgHoldMs c) /\
  (cfgHoldMs (setHoldMs ms c) = clampTo (of_Z 200) (of_Z 1200) (Math_round ms) /\
   (exists z, cfgHoldMs (setHoldMs ms c) = of_Z z /\ 200 <= z <= 1200) /\
   (forall q, ms = Num q ->
      (inject_Z (Qfloor (q + (1 # 2))) - (1 # 2) <= q
       /\ q < inject_Z (Qfloor (q + (1 # 2))) + (1 # 2))%Q /\
      cfgHoldMs (setHoldMs ms c) = of_Z (Z.min 1200 (Z.max 200 (Qfloor (q + (1 # 2)))))) /\
   threshold (setHoldMs ms c) = threshold c) /\
  (threshold (setThreshold (Num (5 # 10)) c) = Num (7 # 10) /\
   threshold (setThreshold (Num (15 # 10)) c) = Num 1 /\
   cfgHoldMs (setHoldMs (of_Z 50) c) = of_Z 200 /\
   cfgHoldMs (setHoldMs (of_Z 5000) c) = of_Z 1200) /\
  (inRange (Num (7 # 10)) (Num 1) (threshold (applyOps ops initialConfig)) = true /\
   inRange (of_Z 200) (of_Z 1200) (cfgHoldMs (applyOps ops initialConfig)) = true).
Proof.
  intros Hv Hms Hops.
  destruct (setThreshold_inRange v c Hv) as [Ht1 Ht2].
  destruct (setHoldMs_inRange ms c Hms) as [Hh1 Hh2].
  split; [auto|]. split; [|split].
  - split; [exact Hh1|]. split; [|split; [|reflexivity]].
    + rewrite Hh1. apply holdMs_integral, Hms.
    + intros q ->. split; [apply round_nearest|].
      rewrite Hh1. apply (clamp_of_Z 200 1200). lia.
  - repeat split; reflexivity.
  - apply config_inRange_ops; [exact Hops | reflexivity | reflexivity].
Qed.

Lemma configuration_clamping_witness :
  threshold (setThreshold (Num (82 # 100)) initialConfig) = Num (82 # 100) /\
  cfgHoldMs (setHoldMs (Num (4501 # 10)) initialConfig) = of_Z 450 /\
  inRange (Num (7 # 10)) (Num 1)
    (threshold (applyOps [SetThreshold (Num 3); SetHoldMs Infinity; SetThreshold NegInfinity]
                  initialConfig)) = true.
Proof.
  destruct (configuration_clamping (Num (82 # 100)) (Num (4501 # 10)) initialConfig
              [SetThreshold (Num 3); SetHoldMs Infinity; SetThreshold NegInfinity])
    as ((H1 & _) & (_ & _ & H2 & _) & _ & (H3 & _)).
  - reflexivity.
  - reflexivity.
  - repeat constructor.
  - split; [exact H1|]. split; [|exact H3].
    destruct (H2 (4501 # 10) eq_refl) as [_ ->]. reflexivity.
Defined.

(** C10 as stated fails at NaN: [Math.max(0.7, NaN)] is NaN and so is
    [Math.min(1.0, NaN)], and [Math.round(NaN)] is NaN, so either setter
    stores NaN, which lies in no range. *)
Lemma configuration_clamping_counterexample :
  threshold (setThreshold NaN initialConfig) = NaN /\
  inRange (Num (7 # 10)) (Num 1) (threshold (setThreshold NaN initialConfig)) = false /\
  cfgHoldMs (setHoldMs NaN initialConfig) = NaN /\
  inRange (of_Z 200) (of_Z 1200) (cfgHoldMs (setHoldMs NaN initialConfig)) = false.
Proof. repeat split; reflexivity. Qed.

(** ** Order on numbers other than NaN *)

Lemma js_lt_false_le a b :
  isNaN a = false -> isNaN b = false -> js_lt a b = false -> js_le b a = true.
Proof.
  unfold js_lt. destruct a, b; simpl; try discriminate; try reflexivity;
    intros _ _ H; apply negb_false_iff in H; exact H.
Qed.

Lemma js_lt_le a b : js_lt a b = true -> js_le a b = true.
Proof.
  unfold js_lt. destruct a, b; simpl; try discriminate; try reflexivity.
  destruct (Qle_bool_reflect q0 q), (Qle_bool_reflect q q0);
    simpl; try discriminate; try reflexivity. lra.
Qed.

Lemma js_le_trans a b c : js_le a b = true -> js_le b c = true -> js_le a c = true.
Proof.
  destruct a, b, c; simpl; try discriminate; try reflexivity.
  rewrite !Qle_bool_iff. apply Qle_trans.
Qed.

(** ** The best prediction *)

Lemma fold_moreProbable rest pre acc mid :
  Forall hasProbability (pre ++ acc :: mid ++ rest) ->
  Forall (atMost acc) pre -> Forall (below acc) mid ->
  exists pre' b post,
    pre ++ acc :: mid ++ rest = pre' ++ b :: post /\
    fold_left moreProbable rest acc = b /\
    Forall (atMost b) pre' /\ Forall (below b) post.
Proof.
  revert pre acc mid; induction rest as [|p rest IH]; intros pre acc mid Hnn Hpre Hmid.
  - exists pre, acc, mid. rewrite app_nil_r. auto.
  - simpl. unfold moreProbable at 2.
    destruct (js_lt (probability p) (probability acc)) eqn:Hlt.
    + destruct (IH pre acc (mid ++ [p])) as (pre' & b & post & Heq & Hb & H1 & H2).
      * rewrite <- app_assoc. exact Hnn.
      * exact Hpre.
      * apply Forall_app. split; [exact Hmid | constructor; [exact Hlt | constructor]].
      * exists pre', b, post. rewrite <- app_assoc in Heq. auto.
    + assert (Hacc : hasProbability acc /\ hasProbability p).
      { apply Forall_app in Hnn as [_ Hnn]. inversion Hnn as [|? ? Ha Hnn']; subst.
        apply Forall_app in Hnn' as [_ Hnn']. inversion Hnn'; subst. auto. }
      destruct Hacc as [Ha Hp].
      assert (Hle : atMost p acc) by (apply js_lt_false_le; assumption).
      destruct (IH (pre ++ acc :: mid) p []) as (pre' & b & post & Heq & Hb & H1 & H2).
      * rewrite <- app_assoc. exact Hnn.
      * apply Forall_app. split; [|constructor].
        -- eapply Forall_impl; [exact Hpre|]. intros x Hx.
           unfold atMost in *. eapply js_le_trans; eassumption.
        -- exact Hle.
        -- eapply Forall_impl; [exact Hmid|]. intros x Hx.
           unfold atMost, below in *. eapply js_le_trans; [apply js_lt_le, Hx | exact Hle].
      * constructor.
      * exists pre', b, post. rewrite <- app_assoc in Heq. simpl in Heq. auto.
Qed.

(** X1 (the selected prediction).  [reduce] throws on an empty array and
    on no other; and when no probability is NaN, the prediction it
    returns is one of the array, no prediction before it is more
    probable, and every prediction after it is strictly less probable:
    among equally probable maxima the last one wins. *)
Theorem best_is_last_maximum (preds : list Prediction) :
  Forall hasProbability preds ->
  (best preds = None <-> preds = []) /\
  (preds <> [] ->
   exists pre b post,
     preds = pre ++ b :: post /\ best preds = Some b /\
     Forall (atMost b) pre /\ Forall (below b) post).
Proof.
  intros Hnn. split.
  - destruct preds; simpl; split; congruence.
  - intros Hne. destruct preds as [|p rest]; [congruence|].
    destruct (fold_moreProbable rest [] p [] Hnn ltac:(constructor) ltac:(constructor))
      as (pre & b & post & Heq & Hb & H1 & H2).
    exists pre, b, post. simpl in *. rewrite Hb. auto.
Qed.

Lemma best_is_last_maximum_witness :
  best [mkPrediction "A" (Num (3 # 10)); mkPrediction "B" (Num (35 # 100));
        mkPrediction "C" (Num (35 # 100))]
  = Some (mkPrediction "C" (Num (35 # 100))).
Proof.
  destruct (best_is_last_maximum
              [mkPrediction "A" (Num (3 # 10)); mkPrediction "B" (Num (35 # 100));
               mkPrediction "C" (Num (35 # 100))]) as [_ H].
  - repeat constructor.
  - destruct H as (pre & b & post & _ & Hb & _); [discriminate|].
    rewrite Hb. vm_compute in Hb. injection Hb as <-. reflexivity.
Defined.

(** ** trim *)

Lemma trimStart_head (s : string) : startsWhite (trimStart s) = false.
Proof.
  induction s as [|c r IH]; [reflexivity|].
  simpl. destruct (isWhiteSpace c) eqn:Hc; [exact IH | simpl; exact Hc].
Qed.

Lemma trimStart_id (s : string) : startsWhite s = false -> trimStart s = s.
Proof. destruct s as [|c r]; simpl; [reflexivity | intros ->; reflexivity]. Qed.

Lemma trimEnd_head (s : string) : startsWhite s = false -> startsWhite (trimEnd s) = false.
Proof.
  destruct s as [|c r]; simpl; [reflexivity|]. intros Hc.
  destruct (trimEnd r); [rewrite Hc|]; simpl; exact Hc.
Qed.

Lemma trimEnd_last (s : string) : endsWhite (trimEnd s) = false.
Proof.
  induction s as [|c r IH]; [reflexivity|].
  simpl. destruct (trimEnd r) as [|c' r'] eqn:Hr.
  - destruct (isWhiteSpace c) eqn:Hc; simpl; [reflexivity | exact Hc].
  - simpl in IH |- *. exact IH.
Qed.

Lemma trimEnd_id (s : string) : endsWhite s = false -> trimEnd s = s.
Proof.
  induction s as [|c r IH]; [reflexivity|].
  simpl. destruct r as [|c' r'].
  - simpl. intros ->. reflexivity.
  - intros H. rewrite (IH H). reflexivity.
Qed.

Lemma trimEnd_append_space (s : string) : trimEnd (s +:+ String space "") = trimEnd s.
Proof. induction s as [|c r IH]; [reflexivity|]. simpl. rewrite IH. reflexivity. Qed.

Lemma trimStart_append (a b : string) :
  trimStart (a +:+ b) =
  match trimStart a with EmptyString => trimStart b | x => x +:+ b end.
Proof.
  induction a as [|c r IH]; [reflexivity|].
  simpl. destruct (isWhiteSpace c); [exact IH | reflexivity].
Qed.

Lemma trim_append_space (s : string) : trim (s +:+ String space "") = trim s.
Proof.
  unfold trim. rewrite trimStart_append.
  destruct (trimStart s) as [|c r]; [reflexivity|].
  apply (trimEnd_append_space (String c r)).
Qed.

(** A trimmed string neither starts nor ends with white space; trimming
    is idempotent, and leaves a string alone that has no white space at
    either end. *)
Lemma trim_spec (s : string) :
  startsWhite (trim s) = false /\
  endsWhite (trim s) = false /\
  trim (trim s) = trim s /\
  (startsWhite s = false -> endsWhite s = false -> trim s = s).
Proof.
  assert (H1 : startsWhite (trim s) = false) by apply trimEnd_head, trimStart_head.
  assert (H2 : endsWhite (trim s) = false) by apply trimEnd_last.
  repeat split; auto.
  - unfold trim at 1. rewrite (trimStart_id _ H1). apply trimEnd_id, H2.
  - intros Hs He. unfold trim. rewrite (trimStart_id _ Hs). apply trimEnd_id, He.
Qed.

(** ** Ticks built from predictions *)

Lemma startsWhite_space (s : string) : startsWhite s = false -> startsWith s space = false.
Proof.
  destruct s as [|c r]; simpl; [reflexivity|].
  destruct (Ascii.eqb_spec c space) as [->|_]; [discriminate | reflexivity].
Qed.

Lemma sampled_trimmed (e : Event) : sampled e -> trimmedTick e.
Proof.
  destruct e as [f|id t]; simpl; [|auto].
  intros [preds Hf]. unfold frameOf in Hf.
  destruct (best preds) as [b|]; [|discriminate].
  injection Hf as <-. simpl. apply startsWhite_space, trim_spec.
Qed.

(** X2 (no leading space).  Along any trace whose ticks are built from
    predictions by lines 210-218, a text that does not start with a
    space never comes to start with one; in particular the text grown
    from an empty saved text never starts with a space. *)
Theorem sampled_text_head (tr : list Event) (s : Session) :
  Forall sampled tr ->
  startsWith (text s) space = false ->
  startsWith (text (exec tr s)) space = false.
Proof.
  intros Htr Hs. apply text_head_not_space; [exact Hs|].
  eapply Forall_impl; [exact Htr|]. apply sampled_trimmed.
Qed.

Lemma sampled_text_head_witness :
  startsWith
    (text (exec [Tick (frameA (97 # 100) 0); Tick (frameA (97 # 100) 600)] (initial "")))
    space = false.
Proof.
  apply sampled_text_head; [|reflexivity].
  repeat (constructor;
          [exists [mkPrediction " A " (Num (97 # 100)); mkPrediction "B" (Num (1 # 100))];
           reflexivity|]).
  constructor.
Defined.

(** ** The text only grows *)

Lemma append_assoc (a b c : string) : (a +:+ b) +:+ c = a +:+ (b +:+ c).
Proof.
  induction a as [|x a IH]; [reflexivity|].
  change (String x ((a +:+ b) +:+ c) = String x (a +:+ (b +:+ c))).
  f_equal. exact IH.
Qed.

Lemma append_empty_r (a : string) : a +:+ "" = a.
Proof.
  induction a as [|x a IH]; [reflexivity|].
  change (String x (a +:+ "") = String x a). f_equal. exact IH.
Qed.

Lemma step_text e s :
  text (fst (step e s)) =
  text s +:+ match snd (step e s) with Some o => o | None => ""%string end.
Proof.
  destruct e as [f|id t]; simpl.
  - unfold loop. destruct (js_ge (conf f) (thr f)); simpl.
    + destruct (track_frame f s) as (Ht & _).
      destruct (shouldCommit f (track f s)); simpl; rewrite Ht;
        [reflexivity | symmetry; apply append_empty_r].
    + symmetry; apply append_empty_r.
  - destruct (fireTimer_spec id t s)
      as [(due & _ & _ & -> & _ & _ & -> & _) | (-> & -> & _)];
      [reflexivity | symmetry; apply append_empty_r].
Qed.

(** X3 (append-only text).  After any trace the text is the text before
    it followed by everything the trace handed to [appendText], in the
    order of the events: nothing is removed, reordered or inserted
    elsewhere. *)
Theorem text_is_appended (tr : list Event) (s : Session) :
  text (exec tr s) = text s +:+ appended tr s.
Proof.
  revert s; induction tr as [|e tr IH]; intros s; simpl.
  - symmetry; apply append_empty_r.
  - rewrite IH, step_text.
    destruct (snd (step e s)); [rewrite append_assoc | rewrite append_empty_r];
      reflexivity.
Qed.

(** ** A commit is backed by a sustained run *)

Lemma dwellBacked_step tr e s :
  dwellBacked tr s -> dwellBacked (tr ++ [e]) (fst (step e s)).
Proof.
  intros Hs. destruct e as [f|id t]; simpl.
  - destruct (aboveThreshold f) eqn:Ha.
    + destruct (loop_tracking f s Ha) as [Hl Hsince].
      unfold dwellBacked. rewrite Hl, Hsince.
      destruct (String.eqb_spec (label f) "") as [He|Hne]; [left; exact He | right].
      unfold dwellStart.
      destruct (String.eqb_spec (lastDetectedLabelRef s) (label f)) as [Heq|Hneq].
      * destruct Hs as [Hs | (pre & g & run & -> & Hrun & Hg)]; [congruence|].
        exists pre, g, (run ++ [Tick f]). rewrite <- app_assoc. split; [reflexivity|].
        split; [|exact Hg]. rewrite Heq in Hrun.
        change (Tick g :: run ++ [Tick f]) with ((Tick g :: run) ++ [Tick f]).
        apply Forall_app. split; [exact Hrun|]. constructor; [|constructor].
        split; [reflexivity | exact Ha].
      * exists tr, f, []. split; [reflexivity|]. split; [|reflexivity].
        constructor; [|constructor]. split; [reflexivity | exact Ha].
    + rewrite loop_below by exact Ha. left. reflexivity.
  - destruct (fireTimer_refs id t s) as (Hl & Hsince & _).
    unfold dwellBacked. rewrite Hl, Hsince.
    destruct Hs as [Hs | (pre & g & run & -> & Hrun & Hg)]; [left; exact Hs | right].
    exists pre, g, (run ++ [Timeout id t]). rewrite <- app_assoc. split; [reflexivity|].
    split; [|exact Hg].
    change (Tick g :: run ++ [Timeout id t]) with ((Tick g :: run) ++ [Timeout id t]).
    apply Forall_app. split; [exact Hrun|]. constructor; [exact I | constructor].
Qed.

Lemma dwellBacked_reachable savedText tr :
  dwellBacked tr (exec tr (initial savedText)).
Proof.
  induction tr as [|e tr IH] using rev_ind; [left; reflexivity|].
  rewrite exec_app. simpl. apply dwellBacked_step, IH.
Qed.

(** X4 (a commit needs a sustained run).  Whenever a tick commits a
    non-empty label in a session reached from the initial one, the trace
    up to and including that tick ends with a run, begun by a tick [g],
    in which every tick reports that label at or above threshold, and
    the committing tick comes at least [holdMs] after [g]: a label that
    is interrupted by another label or by a tick below threshold before
    its hold time never reaches the text. *)
Theorem commit_needs_sustained_run (savedText : string) (tr : list Event)
    (f : Frame) (c : string) :
  snd (loop f (exec tr (initial savedText))) = Some c ->
  label f <> ""%string ->
  exists pre g run,
    tr ++ [Tick f] = pre ++ Tick g :: run /\
    Forall (holdsLabel (label f)) (Tick g :: run) /\
    js_ge (of_Z (now f - now g)) (holdMs f) = true.
Proof.
  intros Hemit Hne.
  pose proof (dwellBacked_reachable savedText (tr ++ [Tick f])) as Hb.
  rewrite exec_app in Hb. simpl in Hb.
  set (s := exec tr (initial savedText)) in *.
  apply loop_emits in Hemit as (Ha & Hc & _).
  destruct (loop_tracking f s Ha) as [Hl Hsince].
  unfold dwellBacked in Hb. rewrite Hl, Hsince in Hb.
  destruct Hb as [Hb | (pre & g & run & Heq & Hrun & Hg)]; [congruence|].
  exists pre, g, run. split; [exact Heq|]. split; [exact Hrun|].
  unfold shouldCommit, heldLongEnough in Hc. apply andb_prop in Hc as [_ Hh].
  rewrite track_since, Hg in Hh. exact Hh.
Qed.

Lemma commit_needs_sustained_run_witness :
  exists pre g run,
    map (fun t => Tick (frameA (97 # 100) t)) [0; 100; 200; 300; 400; 500]
      ++ [Tick (frameA (97 # 100) 600)] = pre ++ Tick g :: run /\
    js_ge (of_Z (600 - now g)) (of_Z 600) = true.
Proof.
  destruct (commit_needs_sustained_run ""
              (map (fun t => Tick (frameA (97 # 100) t)) [0; 100; 200; 300; 400; 500])
              (frameA (97 # 100) 600) "A")
    as (pre & g & run & H1 & _ & H2).
  - vm_compute. reflexivity.
  - discriminate.
  - exists pre, g, run. auto.
Defined.

(** ** Reset and unmount *)









(** X6 (Reset forgets the last letter).  After a click on Reset, in
    whatever session, a run of ticks on a non-empty label commits that
    label once, at the first tick that comes [holdMs] after the first
    tick of the run: the letter committed before the Reset needs no
    release to be committed again. *)
Theorem reset_forgets_last_letter (s0 : Session) (L : string) (f0 : Frame)
    (fs pre : list Frame) (f : Frame) (post : list Frame) :
  L <> ""%string ->
  Forall (reports L) (f0 :: fs) ->
  f0 :: fs = pre ++ f :: post ->
  Forall (fun g => dwellReached (now f0) g = false) pre ->
  dwellReached (now f0) f = true ->
  emissions (map Tick (f0 :: fs)) (onReset s0) = [(now f, toUpperCase L)].
Proof.
  intros Hne Hrun Hsplit Hwait Hreach.
  assert (Hstart : dwellStart (onReset s0) L (now f0) = now f0).
  { unfold dwellStart. change (lastDetectedLabelRef (onReset s0)) with ""%string.
    destruct (String.eqb_spec "" L) as [He|_]; [congruence | reflexivity]. }
  destruct (run_commits_once L f0 fs (onReset s0) pre f post) as [_ H]; try assumption.
  - rewrite Hstart. exact Hwait.
  - rewrite Hstart. exact Hreach.
  - left. simpl. congruence.
Qed.

Lemma reset_forgets_last_letter_witness :
  emissions (map Tick (map (frameA (97 # 100)) [700; 800; 1300; 1400]))
    (onReset (exec endToEnd (initial ""))) = [(1300, "A"%string)].
Proof.
  apply (reset_forgets_last_letter _ "A" (frameA (97 # 100) 700)
           (map (frameA (97 # 100)) [800; 1300; 1400])
           (map (frameA (97 # 100)) [700; 800])
           (frameA (97 # 100) 1300)
           (map (frameA (97 # 100)) [1400])).
  - discriminate.
  - repeat constructor.
  - reflexivity.
  - repeat constructor.
  - reflexivity.
Defined.

(** ** Settings and confidences that are NaN *)

Lemma js_le_NaN_r a b : isNaN b = true -> js_le a b = false.
Proof. destruct b; try discriminate. destruct a; reflexivity. Qed.

Lemma js_le_NaN_l a b : isNaN a = true -> js_le a b = false.
Proof. destruct a; try discriminate. reflexivity. Qed.

Lemma blind_run_silent (tr : list Event) (s : Session) :
  Forall blindTick tr -> emissions tr s = [].
Proof.
  intros Htr; revert s; induction Htr as [|e tr He _ IH]; intros s; [reflexivity|].
  destruct e as [f|id t]; simpl; [|apply IH].
  assert (Hn : snd (loop f s) = None).
  { apply loop_silent. unfold aboveThreshold, shouldCommit, heldLongEnough, js_ge.
    destruct He as [H | [H | H]].
    - left. apply js_le_NaN_l, H.
    - right. rewrite (js_le_NaN_l _ _ H). apply andb_false_r.
    - left. apply js_le_NaN_r, H. }
  rewrite Hn. apply IH.
Qed.

(** X7 (NaN silences a tick).  A tick whose threshold, whose hold time
    (the one its loop compares against) or whose confidence is NaN
    commits nothing, every comparison with NaN being false; and since
    [setThreshold NaN] stores NaN, ticks that read the threshold of the
    store after such a call never commit, whatever they report. *)
Theorem nan_never_commits (tr : list Event) (s : Session) (c : Config) :
  (Forall blindTick tr -> emissions tr s = []) /\
  (Forall (readsThreshold (setThreshold NaN c)) tr -> emissions tr s = []).
Proof.
  split; [apply blind_run_silent|].
  intros Htr. apply blind_run_silent.
  eapply Forall_impl; [exact Htr|].
  intros [f|id t]; simpl; [|auto]. intros ->. left. reflexivity.
Qed.

Lemma nan_never_commits_witness :
  emissions
    (map (fun t => Tick {| thr := threshold (setThreshold NaN initialConfig);
                           holdMs := of_Z 600; label := "A";
                           conf := Num 1; now := t |}) [0; 600; 1200])
    (initial "") = [].
Proof.
  destruct (nan_never_commits
              (map (fun t => Tick {| thr := threshold (setThreshold NaN initialConfig);
                                     holdMs := of_Z 600; label := "A";
                                     conf := Num 1; now := t |}) [0; 600; 1200])
              (initial "") initialConfig) as [_ H].
  apply H. repeat constructor.
Defined.

(** ** Copy Text *)

(** X8 (the clipboard).  What Copy Text puts on the clipboard has no
    white space at either end, and a word boundary inserted by the timer
    never changes it: the trailing space of the text is not copied. *)
Theorem copy_ignores_boundary (id t : Z) (s : Session) :
  startsWhite (copyText s) = false /\
  endsWhite (copyText s) = false /\
  copyText (fst (fireTimer id t s)) = copyText s.
Proof.
  unfold copyText. split; [apply trim_spec|]. split; [apply trim_spec|].
  destruct (fireTimer_spec id t s)
    as [(due & _ & _ & _ & _ & _ & -> & _) | (_ & -> & _)];
    [apply trim_append_space | reflexivity].
Qed.

(** ** The saved copy of the text *)

Lemma textOp_saved o st :
  opStored o = true ->
  savedTextOf (asl_text st) = storeText st ->
  savedTextOf (asl_text (textOp o st)) = storeText (textOp o st).
Proof. destruct o as [t b|b]; simpl; intros -> _; reflexivity. Qed.

Lemma textOp_withStored b o st st' :
  storeText st = storeText st' ->
  storeText (textOp (withStored b o) st) = storeText (textOp o st').
Proof. destruct o as [t b'|b']; simpl; [intros ->|]; reflexivity. Qed.

(** X9 (the saved text).  From a page load, after any sequence of
    [appendText] and [resetText] whose localStorage calls all went
    through, loading the page again restores exactly the current text;
    and the text of the running store is the same whichever of those
    calls went through and whichever threw: two runs of the same actions
    that differ only in the outcomes of their localStorage calls end
    with the same text. *)
Theorem saved_text_round_trip (item : option string) (ops ops' : list TextOp) :
  (Forall (fun o => opStored o = true) ops ->
   storeText (loadStore (asl_text (textOps ops (loadStore item))))
   = storeText (textOps ops (loadStore item))) /\
  (map (withStored true) ops = map (withStored true) ops' ->
   storeText (textOps ops (loadStore item)) = storeText (textOps ops' (loadStore item))).
Proof.
  split.
  - intros Hops.
    assert (Hgen : forall st, savedTextOf (asl_text st) = storeText st ->
              savedTextOf (asl_text (textOps ops st)) = storeText (textOps ops st)).
    { induction Hops as [|o ops Ho _ IH]; intros st Hst; [exact Hst|].
      change (textOps (o :: ops) st) with (textOps ops (textOp o st)).
      apply IH, textOp_saved; assumption. }
    apply (Hgen (loadStore item)). reflexivity.
  - assert (Hgen : forall l st st', storeText st = storeText st' ->
              storeText (textOps (map (withStored true) l) st) = storeText (textOps l st')).
    { induction l as [|o l IH]; intros st st' Hst; [exact Hst|].
      change (textOps (map (withStored true) (o :: l)) st)
        with (textOps (map (withStored true) l) (textOp (withStored true o) st)).
      change (textOps (o :: l) st') with (textOps l (textOp o st')).
      apply IH, textOp_withStored, Hst. }
    intros Heq.
    rewrite <- (Hgen ops (loadStore item) (loadStore item) eq_refl).
    rewrite <- (Hgen ops' (loadStore item) (loadStore item) eq_refl).
    rewrite Heq. reflexivity.
Qed.

Lemma saved_text_round_trip_witness :
  storeText (loadStore (asl_text (textOps [AppendText "B" true; ResetText true;
                                           AppendText "C" true]
                                    (loadStore (Some "A"%string)))))
  = "C"%string /\
  storeText (textOps [AppendText "B" false; ResetText true; AppendText "C" false]
               (loadStore (Some "A"%string)))
  = storeText (textOps [AppendText "B" true; ResetText false; AppendText "C" true]
                 (loadStore (Some "A"%string))).
Proof.
  split.
  - destruct (saved_text_round_trip (Some "A"%string)
                [AppendText "B" true; ResetText true; AppendText "C" true] []) as [H _].
    rewrite H; [reflexivity | repeat constructor].
  - destruct (saved_text_round_trip (Some "A"%string)
                [AppendText "B" false; ResetText true; AppendText "C" false]
                [AppendText "B" true; ResetText false; AppendText "C" true]) as [_ H].
    apply H. reflexivity.
Defined.

(** ** Sentence correction *)

Lemma afterCalls_lastFailure calls l tf :
  0 < tf -> tf <= l ->
  Forall (fun d => tf <= checkedAt d /\ checkedAt d <= failedAt d) calls ->
  tf <= afterCalls calls l.
Proof.
  intros Htf Hl Hcalls. revert l Hl.
  induction Hcalls as [|d calls [Hd1 Hd2] _ IH]; intros l Hl; [exact Hl|].
  change (afterCalls (d :: calls) l)
    with (afterCalls calls (lastAiFailureAt (correctSentence l d))).
  apply IH. unfold correctSentence.
  destruct (negb (configured d)); [simpl; lia|].
  destruct (isOffline d); [simpl; lia|].
  destruct (negb (l =? 0) && (checkedAt d - l <? AI_FAILURE_COOLDOWN_MS)); [simpl; lia|].
  destruct (reply d); simpl; lia.
Qed.

(** X10 (cooldown after a failed correction).  When a call sends its
    request and the request fails, the call returns the raw text; from
    then on, with instants that do not run backwards, a call within
    [AI_FAILURE_COOLDOWN_MS] = 30 s of a failure sends nothing, returns
    its raw text and leaves the failure instant as it is, and any later
    call that does send a request comes at least 30 s after that
    failure. *)
Theorem failure_cooldown (l0 : Z) (c0 : Call) (calls : list Call) (c : Call) :
  requested (correctSentence l0 c0) = true ->
  reply c0 = None ->
  0 < failedAt c0 ->
  Forall (fun d => failedAt c0 <= checkedAt d /\ checkedAt d <= failedAt d) (calls ++ [c]) ->
  returned (correctSentence l0 c0) = rawText c0 /\
  lastAiFailureAt (correctSentence l0 c0) = failedAt c0 /\
  (forall l d, l <> 0 -> checkedAt d - l < AI_FAILURE_COOLDOWN_MS ->
     configured d = true -> isOffline d = false ->
     correctSentence l d
     = {| returned := rawText d; requested := false; lastAiFailureAt := l |}) /\
  (requested (correctSentence (afterCalls calls (failedAt c0)) c) = true ->
   failedAt c0 + AI_FAILURE_COOLDOWN_MS <= checkedAt c).
Proof.
  intros Hreq Hreply Hpos Hcalls.
  apply Forall_app in Hcalls as [Hcalls Hc].
  inversion Hc as [|? ? [Hc1 Hc2] _]; subst.
  split; [|split; [|split]].
  - unfold correctSentence in *.
    destruct (negb (configured c0)); [reflexivity|].
    destruct (isOffline c0); [reflexivity|].
    destruct (negb (l0 =? 0) && (checkedAt c0 - l0 <? AI_FAILURE_COOLDOWN_MS));
      [reflexivity|]. rewrite Hreply. reflexivity.
  - unfold correctSentence in *.
    destruct (negb (configured c0)); [discriminate|].
    destruct (isOffline c0); [discriminate|].
    destruct (negb (l0 =? 0) && (checkedAt c0 - l0 <? AI_FAILURE_COOLDOWN_MS));
      [discriminate|]. rewrite Hreply. reflexivity.
  - intros l d Hl Hd Hcfg Hoff. unfold correctSentence. rewrite Hcfg, Hoff. simpl.
    apply Z.eqb_neq in Hl. apply Z.ltb_lt in Hd. rewrite Hl, Hd. reflexivity.
  - pose proof (afterCalls_lastFailure calls (failedAt c0) (failedAt c0) Hpos
                  (Z.le_refl _) Hcalls) as Hl.
    set (l := afterCalls calls (failedAt c0)) in *.
    unfold correctSentence.
    destruct (negb (configured c)); [discriminate|].
    destruct (isOffline c); [discriminate|].
    destruct (Z.eqb_spec l 0) as [Hz|_]; [lia|]. simpl.
    destruct (Z.ltb_spec (checkedAt c - l) AI_FAILURE_COOLDOWN_MS) as [Hlt|Hge];
      [discriminate|]. intros _. lia.
Qed.

Lemma failure_cooldown_witness :
  returned (correctSentence 0 (mkCall "HELO" true false 1000 1200 None)) = "HELO"%string /\
  (requested (correctSentence
                (afterCalls [mkCall "HELO" true false 5000 5000 (Some "Hello."%string)] 1200)
                (mkCall "HELO" true false 31200 31300 (Some "Hello."%string))) = true ->
   1200 + AI_FAILURE_COOLDOWN_MS <= 31200).
Proof.
  destruct (failure_cooldown 0 (mkCall "HELO" true false 1000 1200 None)
              [mkCall "HELO" true false 5000 5000 (Some "Hello."%string)]
              (mkCall "HELO" true false 31200 31300 (Some "Hello."%string)))
    as (H1 & _ & _ & H2).
  - reflexivity.
  - reflexivity.
  - reflexivity.
  - repeat constructor; simpl; lia.
  - split; [exact H1 | exact H2].
Defined.

(** ** The release clock across a Reset *)

Lemma fireTimer_withRelease id t r s :
  fireTimer id t (withRelease r s)
  = (withRelease r (fst (fireTimer id t s)), snd (fireTimer id t s)).
Proof.
  unfold fireTimer, letterGapCallback; simpl.
  destruct (timers s !! id) as [due|]; [|reflexivity].
  destruct (due <=? t); [|reflexivity]. simpl.
  destruct (negb (String.eqb (text s) "") && negb (endsWith (text s) space)); reflexivity.
Qed.

Lemma track_withRelease f r s : track f (withRelease r s) = withRelease r (track f s).
Proof.
  unfold track; simpl.
  destruct (negb (String.eqb (lastDetectedLabelRef s) (label f))); reflexivity.
Qed.

Lemma step_sameButRelease e s1 s2 :
  namedTick e -> sameButRelease s1 s2 ->
  snd (step e s1) = snd (step e s2) /\
  sameButRelease (fst (step e s1)) (fst (step e s2)).
Proof.
  intros He [-> | (Hlast & r & ->)]; [split; [reflexivity | left; reflexivity]|].
  destruct e as [f|id t]; simpl in *.
  - unfold loop; simpl. destruct (js_ge (conf f) (thr f)).
    + rewrite track_withRelease.
      destruct (track_frame f s2) as (_ & Hl & _).
      assert (Hc : shouldCommit f (withRelease r (track f s2)) = shouldCommit f (track f s2)).
      { unfold shouldCommit, heldLongEnough; simpl. rewrite Hl, Hlast.
        apply String.eqb_neq in He. rewrite He. reflexivity. }
      rewrite Hc. destruct (shouldCommit f (track f s2)); simpl.
      * split; [reflexivity | left; reflexivity].
      * split; [reflexivity|]. right. rewrite Hl. eauto.
    + simpl. split; [reflexivity|]. right. split; [exact Hlast|].
      exists (if r =? 0 then now f else r). reflexivity.
  - rewrite fireTimer_withRelease. simpl. split; [reflexivity|]. right.
    destruct (fireTimer_refs id t s2) as (_ & _ & -> & _). eauto.
Qed.

(** X11 (the release clock Reset leaves running).  [onReset] does not
    reset [releaseStartRef]; yet with ticks whose labels are not empty,
    whatever that clock reads at the Reset, every event afterwards hands
    [appendText] exactly what it would have had the clock been cleared
    too. *)
Theorem reset_release_unobserved (s0 : Session) (tr : list Event) :
  Forall namedTick tr ->
  releaseStartRef (onReset s0) = releaseStartRef s0 /\
  outputs tr (onReset s0) = outputs tr (withRelease 0 (onReset s0)).
Proof.
  intros Htr. split; [reflexivity|].
  assert (Hgen : forall s1 s2, sameButRelease s1 s2 -> outputs tr s1 = outputs tr s2).
  { induction Htr as [|e tr He _ IH]; intros s1 s2 Hs; [reflexivity|].
    destruct (step_sameButRelease e s1 s2 He Hs) as [Ho Hs'].
    simpl. rewrite Ho. f_equal. apply IH, Hs'. }
  apply Hgen. right. split; [reflexivity|].
  exists (releaseStartRef s0). reflexivity.
Qed.

Lemma reset_release_unobserved_witness :
  releaseStartRef (onReset (exec staleRelease (initial ""))) = 1200 /\
  outputs (map (fun t => Tick (frameA (97 # 100) t)) [2000; 2700])
    (onReset (exec staleRelease (initial "")))
  = outputs (map (fun t => Tick (frameA (97 # 100) t)) [2000; 2700])
      (withRelease 0 (onReset (exec staleRelease (initial "")))).
Proof.
  destruct (reset_release_unobserved (exec staleRelease (initial ""))
              (map (fun t => Tick (frameA (97 # 100) t)) [2000; 2700])) as [H1 H2].
  - repeat constructor; discriminate.
  - split; [rewrite H1; reflexivity | exact H2].
Defined.

(** ** The dataset worker: dispatch *)

Lemma stripPrefix_spec (p s r : string) : stripPrefix p s = Some r <-> s = p +:+ r.
Proof.
  revert s; induction p as [|a p IH]; intros s; simpl.
  - split; [intros [= ->] | intros ->]; reflexivity.
  - destruct s as [|b s]; [split; discriminate|].
    destruct (Ascii.eqb_spec a b) as [->|Hne].
    + rewrite IH. split; [intros -> | intros [= ->]]; reflexivity.
    + split; [discriminate | intros [= Hab _]; congruence].
Qed.

Lemma spanDigits_spec (s : string) :
  s = fst (spanDigits s) +:+ snd (spanDigits s) /\
  allDigits (fst (spanDigits s)) = true /\
  startsDigit (snd (spanDigits s)) = false.
Proof.
  induction s as [|c r (IH1 & IH2 & IH3)]; [auto|].
  simpl. destruct (isDigit c) eqn:Hc; simpl.
  - rewrite Hc, IH2. repeat split; auto.
    change (String c r = String c (fst (spanDigits r) +:+ snd (spanDigits r))).
    f_equal. exact IH1.
  - rewrite Hc. auto.
Qed.

Lemma spanDigits_app (d suf : string) :
  allDigits d = true -> startsDigit suf = false -> spanDigits (d +:+ suf) = (d, suf).
Proof.
  intros Hd Hsuf. induction d as [|c d IH].
  - destruct suf as [|a suf]; [reflexivity|]. simpl in *. rewrite Hsuf. reflexivity.
  - simpl in Hd. apply andb_prop in Hd as [Hc Hd].
    change (String c d +:+ suf) with (String c (d +:+ suf)).
    simpl. rewrite Hc, (IH Hd). reflexivity.
Qed.

(** The matcher agrees with the regular expression it stands for. *)
Lemma matchId_spec (pre suf path d : string) :
  startsDigit suf = false ->
  matchId pre suf path = Some d <->
  path = pre +:+ d +:+ suf /\ d <> ""%string /\ allDigits d = true.
Proof.
  intros Hsuf. unfold matchId. split.
  - destruct (stripPrefix pre path) as [r|] eqn:Hr; [|discriminate].
    apply stripPrefix_spec in Hr.
    destruct (spanDigits_spec r) as (H1 & H2 & _).
    destruct (spanDigits r) as [d' rest]; simpl in *.
    destruct (String.eqb_spec d' ""); simpl; [discriminate|].
    destruct (String.eqb_spec rest suf); [|discriminate].
    intros [= <-]. subst. auto.
  - intros (-> & Hne & Hd).
    assert (Hr : stripPrefix pre (pre +:+ d +:+ suf) = Some (d +:+ suf))
      by (apply stripPrefix_spec; reflexivity).
    rewrite Hr, (spanDigits_app d suf Hd Hsuf).
    apply String.eqb_neq in Hne. rewrite Hne, String.eqb_refl. reflexivity.
Qed.

Lemma matchId_compute (pre suf suf' d : string) :
  allDigits d = true -> startsDigit suf' = false ->
  matchId pre suf (pre +:+ d +:+ suf')
  = if negb (String.eqb d "") && String.eqb suf' suf then Some d else None.
Proof.
  intros Hd Hs. unfold matchId.
  assert (Hr : stripPrefix pre (pre +:+ d +:+ suf') = Some (d +:+ suf'))
    by (apply stripPrefix_spec; reflexivity).
  rewrite Hr, (spanDigits_app d suf' Hd Hs). reflexivity.
Qed.

(** X12 (what a request may do).  The worker inserts a row or asks for
    an upload address only on POST, and inserts only when the body has
    the members the route requires, each of them truthy; it reads the
    database only on GET; so a request with any other method, or a POST
    without its members, leaves the database alone.  The method is
    compared after upper-casing. *)
Theorem writes_need_post_and_fields (path requestMethod : string) (body : Json) :
  (writes (route path requestMethod body) = true ->
   toUpperCase requestMethod = "POST"%string /\
   Forall (fun k => hasField k body = true)
     (requiredFields (route path requestMethod body))) /\
  (reads (route path requestMethod body) = true ->
   toUpperCase requestMethod = "GET"%string).
Proof.
  split.
  - route_cases; intros Hw; try discriminate; split; try assumption;
      repeat constructor; route_finish.
  - route_cases; intros Hr; try discriminate; route_finish.
Qed.

Lemma writes_need_post_and_fields_witness :
  toUpperCase "post" = "POST"%string /\
  hasField "name" (JObject [("name"%string, JString "letters")]) = true.
Proof.
  destruct (writes_need_post_and_fields "/api/datasets" "post"
              (JObject [("name"%string, JString "letters")])) as [H _].
  destruct H as [H1 H2]; [reflexivity|].
  split; [exact H1|]. inversion H2; assumption.
Defined.

Lemma toDouble_exact (n : Z) : n < 2 ^ 53 -> toDouble n = of_Z n.
Proof.
  intros Hn. unfold toDouble.
  assert (Hbits : Z.log2 n + 1 <= 53).
  { destruct (Z.le_gt_cases n 0) as [Hle|Hpos].
    - rewrite (Z.log2_nonpos n Hle). lia.
    - apply Z.log2_lt_pow2 in Hn; lia. }
  apply Z.leb_le in Hbits. rewrite Hbits. reflexivity.
Qed.

(** X13 (paths and ids).  An action that carries an id was reached by
    the path of its route with a non-empty string of digits in the place
    of the id, and the id it carries is [Number] of those digits;
    conversely each of the four paths, with any non-empty string of
    digits, reaches its route with its method (and, for a sample, a body
    with label and key), no earlier route taking the request.  [Number]
    ignores a leading zero and is exact below 2^53, so different paths
    can carry the same id. *)
Theorem route_ids (capture : string) (body : Json) :
  capture <> ""%string -> allDigits capture = true ->
  (forall path requestMethod body' n,
     boundId (route path requestMethod body') = Some n ->
     exists c,
       path = routePath (route path requestMethod body') c /\
       c <> ""%string /\ allDigits c = true /\ n = NumberOfDigits c) /\
  route ("/api/datasets/" +:+ capture) "GET" body
    = SelectDataset (NumberOfDigits capture) /\
  route ("/api/datasets/" +:+ capture +:+ "/samples/presign") "POST" body
    = PresignUpload (NumberOfDigits capture) /\
  (hasField "label" body = true -> hasField "key" body = true ->
   route ("/api/datasets/" +:+ capture +:+ "/samples") "POST" body
   = InsertSample (NumberOfDigits capture)) /\
  route ("/api/training-jobs/" +:+ capture) "GET" body
    = SelectJob (NumberOfDigits capture) /\
  NumberOfDigits (String "0" capture) = NumberOfDigits capture /\
  (digitsValue capture < 2 ^ 53 ->
   NumberOfDigits capture = of_Z (digitsValue capture)).
Proof.
  intros Hne Hd. apply String.eqb_neq in Hne.
  split; [|split; [|split; [|split; [|split; [|split]]]]].
  - intros path m body' n. route_cases; intros Hp; try discriminate;
      injection Hp as <-;
      match goal with
      | H : matchId _ _ _ = Some ?c |- _ =>
          apply matchId_spec in H as (-> & ? & ?); [|reflexivity]; exists c
      end; repeat split; auto; rewrite append_empty_r; reflexivity.
  - unfold route.
    pose proof (matchId_compute "/api/datasets/" "" "" capture Hd eq_refl) as H.
    rewrite append_empty_r in H. rewrite Hne in H.
    change (String.eqb ("/api/datasets/" +:+ capture) "/api/health") with false.
    change (String.eqb ("/api/datasets/" +:+ capture) "/api/datasets") with false.
    cbv iota. rewrite H. reflexivity.
  - unfold route.
    pose proof (matchId_compute "/api/datasets/" "" "/samples/presign" capture Hd eq_refl)
      as H1.
    pose proof (matchId_compute "/api/datasets/" "/samples/presign" "/samples/presign"
                  capture Hd eq_refl) as H2.
    rewrite Hne in H1, H2.
    change (String.eqb ("/api/datasets/" +:+ capture +:+ "/samples/presign") "/api/health")
      with false.
    change (String.eqb ("/api/datasets/" +:+ capture +:+ "/samples/presign") "/api/datasets")
      with false.
    cbv iota. rewrite H1, H2. reflexivity.
  - intros Hl Hk. unfold route.
    pose proof (matchId_compute "/api/datasets/" "" "/samples" capture Hd eq_refl) as H1.
    pose proof (matchId_compute "/api/datasets/" "/samples/presign" "/samples" capture
                  Hd eq_refl) as H2.
    pose proof (matchId_compute "/api/datasets/" "/samples" "/samples" capture Hd eq_refl)
      as H3.
    rewrite Hne in H1, H2, H3.
    change (String.eqb ("/api/datasets/" +:+ capture +:+ "/samples") "/api/health")
      with false.
    change (String.eqb ("/api/datasets/" +:+ capture +:+ "/samples") "/api/datasets")
      with false.
    cbv iota. rewrite H1, H2, H3, Hl, Hk. reflexivity.
  - unfold route.
    pose proof (matchId_compute "/api/training-jobs/" "" "" capture Hd eq_refl) as H.
    rewrite append_empty_r in H. rewrite Hne in H.
    change (String.eqb ("/api/training-jobs/" +:+ capture) "/api/health") with false.
    change (String.eqb ("/api/training-jobs/" +:+ capture) "/api/datasets") with false.
    change (String.eqb ("/api/training-jobs/" +:+ capture) "/api/retrain") with false.
    change (matchId "/api/datasets/" "" ("/api/training-jobs/" +:+ capture))
      with (@None string).
    change (matchId "/api/datasets/" "/samples/presign" ("/api/training-jobs/" +:+ capture))
      with (@None string).
    change (matchId "/api/datasets/" "/samples" ("/api/training-jobs/" +:+ capture))
      with (@None string).
    cbv iota. rewrite H. reflexivity.
  - reflexivity.
  - apply toDouble_exact.
Qed.

Lemma route_ids_witness :
  route "/api/datasets/42/samples" "post"
    (JObject [("label"%string, JString "A"); ("key"%string, JString "datasets/42/1-a.bin")])
  = InsertSample (of_Z 42) /\
  route "/api/datasets/007" "GET" JNull = route "/api/datasets/7" "GET" JNull.
Proof.
  split.
  - destruct (route_ids "42"
                (JObject [("label"%string, JString "A");
                          ("key"%string, JString "datasets/42/1-a.bin")]))
      as (_ & _ & _ & H & _ & _ & Hx).
    + discriminate.
    + reflexivity.
    + transitivity (InsertSample (NumberOfDigits "42"));
        [rewrite <- H; reflexivity | f_equal; exact (Hx eq_refl)].
  - destruct (route_ids "07" JNull) as (_ & H07 & _ & _ & _ & Hz & _);
      [discriminate | reflexivity |].
    destruct (route_ids "7" JNull) as (_ & H7 & _ & _ & _ & Hz' & _);
      [discriminate | reflexivity |].
    transitivity (SelectDataset (NumberOfDigits "7")); [|symmetry; exact H7].
    rewrite <- Hz', <- Hz. reflexivity.
Defined.

(** ** The dataset worker: the name of an uploaded file *)

Lemma safeChar_not_slash (c : ascii) :
  Ascii.eqb (if isSafeChar c then c else "_"%char) "/"%char = false.
Proof.
  destruct (isSafeChar c) eqn:Hc; [|reflexivity].
  destruct (Ascii.eqb_spec c "/"%char) as [->|_]; [discriminate | reflexivity].
Qed.

Lemma safeChar_safe (c : ascii) : isSafeChar (if isSafeChar c then c else "_"%char) = true.
Proof. destruct (isSafeChar c) eqn:Hc; [exact Hc | reflexivity]. Qed.

(** X14 (the sanitised file name).  The name put into the storage key
    has only characters of [a-zA-Z0-9._-], so no path separator; it has
    the length of the file name it comes from; sanitising again changes
    nothing, and a name that is already clean is kept as it is. *)
Theorem safeName_spec (filename : string) :
  allSafe (safeName filename) = true /\
  contains "/"%char (safeName filename) = false /\
  String.length (safeName filename) = String.length filename /\
  safeName (safeName filename) = safeName filename /\
  (allSafe filename = true -> safeName filename = filename).
Proof.
  induction filename as [|c r (IH1 & IH2 & IH3 & IH4 & IH5)]; [repeat split; reflexivity|].
  simpl. rewrite safeChar_safe, safeChar_not_slash, IH1, IH2, IH3, IH4.
  repeat split; try reflexivity.
  intros H. apply andb_prop in H as [Hc Hr]. rewrite Hc, (IH5 Hr). reflexivity.
Qed.

Lemma safeName_spec_witness : safeName "sample.bin" = "sample.bin"%string.
Proof.
  destruct (safeName_spec "sample.bin") as (_ & _ & _ & _ & H). apply H. reflexivity.
Defined.

(** ** The boundary does fire *)

Lemma endsWith_append (a b : string) (c : ascii) :
  b <> ""%string -> endsWith (a +:+ b) c = endsWith b c.
Proof.
  intros Hb. induction a as [|x a IH]; [reflexivity|].
  change (String x a +:+ b) with (String x (a +:+ b)).
  simpl. destruct (a +:+ b) as [|y r] eqn:Hab; [|exact IH].
  destruct a; [change (b = ""%string) in Hab; contradiction | discriminate].
Qed.

Lemma endsWith_toUpperCase (l : string) :
  endsWith (toUpperCase l) space = endsWith l space.
Proof.
  induction l as [|x l IH]; [reflexivity|].
  simpl. destruct l as [|y l]; [apply upper_ascii_space | exact IH].
Qed.

Lemma toUpperCase_empty (l : string) : toUpperCase l = ""%string -> l = ""%string.
Proof. destruct l; [reflexivity | discriminate]. Qed.

(** A step that appends nothing to a text that a boundary could follow
    leaves the text and the pending timers as they are. *)
Lemma idle_step_keeps e tr s :
  text s <> ""%string -> endsWith (text s) space = false ->
  emissions (e :: tr) s = [] -> boundaries (e :: tr) s = [] ->
  text (fst (step e s)) = text s /\ timers (fst (step e s)) = timers s /\
  emissions tr (fst (step e s)) = [] /\ boundaries tr (fst (step e s)) = [].
Proof.
  intros Hne Hends Hem Hbd.
  destruct (emissions_nil_cons _ _ _ Hem) as [Hs Hrest].
  destruct e as [f|id t]; simpl in *.
  - destruct (Hs f eq_refl) as [Hl | [Hl _]]; rewrite Hl in *; simpl.
    + destruct (track_frame f s) as (-> & _ & _ & _ & -> & _). auto.
    + auto.
  - destruct (fireTimer_spec id t s)
      as [(due & _ & _ & Ho & _) | (Ho & _ & Hwhy)].
    + rewrite Ho in Hbd. discriminate.
    + rewrite Ho in Hbd.
      assert (Hsame : fst (fireTimer id t s) = s).
      { unfold fireTimer in *.
        destruct (timers s !! id) as [due|]; [|reflexivity].
        destruct (due <=? t); [|reflexivity].
        unfold letterGapCallback in *. simpl in *.
        apply String.eqb_neq in Hne. rewrite Hne, Hends in Ho. discriminate. }
      rewrite Hsame in *. auto.
Qed.

Lemma idle_run_keeps tr s :
  text s <> ""%string -> endsWith (text s) space = false ->
  emissions tr s = [] -> boundaries tr s = [] ->
  text (exec tr s) = text s /\ timers (exec tr s) = timers s.
Proof.
  revert s; induction tr as [|e tr IH]; intros s Hne Hends Hem Hbd; [auto|].
  destruct (idle_step_keeps e tr s Hne Hends Hem Hbd) as (Ht & Htm & Hem' & Hbd').
  simpl. destruct (IH (fst (step e s))) as [-> ->]; try rewrite Ht; auto.
Qed.

(** X15 (the boundary fires).  After a tick has committed a non-empty
    label that does not end with a space, in a session reached from the
    initial one, and for as long as no tick commits and no space is
    inserted, the timer the commit armed stays pending; fired at any
    instant from [LETTER_GAP_MS] after the commit on, it appends one
    space right after the committed letter. *)
Theorem boundary_fires (savedText : string) (tr : list Event) (f : Frame) (c : string)
    (mid : list Event) (t : Z) :
  snd (loop f (exec tr (initial savedText))) = Some c ->
  label f <> ""%string ->
  endsWith (label f) space = false ->
  emissions mid (fst (loop f (exec tr (initial savedText)))) = [] ->
  boundaries mid (fst (loop f (exec tr (initial savedText)))) = [] ->
  now f + LETTER_GAP_MS <= t ->
  exists id,
    letterGapTimerRef (fst (loop f (exec tr (initial savedText)))) = Some id /\
    snd (fireTimer id t (exec mid (fst (loop f (exec tr (initial savedText))))))
      = Some (String space "") /\
    text (fst (fireTimer id t (exec mid (fst (loop f (exec tr (initial savedText)))))))
      = (text (exec tr (initial savedText)) +:+ c) +:+ String space "".
Proof.
  intros Hemit Hlab Hends Hem Hbd Ht.
  pose proof (timerInv_reachable savedText tr) as Hinv.
  set (s := exec tr (initial savedText)) in *.
  apply loop_emits in Hemit as (Ha & Hc & ->).
  rewrite loop_above, Hc in * by assumption. cbn [fst snd] in *.
  destruct (commit_timers _ f s Hinv) as (Hr & Htm & _).
  destruct (commit_fields f (track f s)) as (Htext & _).
  destruct (track_frame f s) as (Hts & _). rewrite Hts in Htext.
  set (s1 := commit f (track f s)) in *.
  assert (Hne : text s1 <> ""%string).
  { rewrite Htext. intros H. destruct (text s); [|discriminate].
    simpl in H. apply toUpperCase_empty in H. contradiction. }
  assert (Hend : endsWith (text s1) space = false).
  { rewrite Htext, endsWith_append, endsWith_toUpperCase; [exact Hends|].
    intros H. apply toUpperCase_empty in H. contradiction. }
  destruct (idle_run_keeps mid s1 Hne Hend Hem Hbd) as [Hmt Hmtm].
  exists (nextTimerId s). split; [exact Hr|].
  destruct (fireTimer_spec (nextTimerId s) t (exec mid s1))
    as [(due & _ & _ & Ho & _ & _ & Htx & _) | (_ & _ & Hwhy)].
  - split; [exact Ho|]. rewrite Htx, Hmt, Htext. reflexivity.
  - exfalso. rewrite Hmtm, Htm, lookup_singleton_eq in Hwhy.
    unfold sealedText in Hwhy. rewrite Hmt in Hwhy.
    destruct Hwhy as [[H | H] | [H | (due & [= <-] & H)]];
      [contradiction | congruence | discriminate | lia].
Qed.

Lemma boundary_fires_witness :
  exists id,
    text (fst (fireTimer id 3600
                 (exec [Tick (frameA (97 # 100) 700); Timeout 1 3000]
                    (fst (loop (frameA (97 # 100) 600)
                            (exec (map (fun t => Tick (frameA (97 # 100) t))
                                     [0; 100; 200; 300; 400; 500]) (initial "")))))))
    = "A "%string.
Proof.
  destruct (boundary_fires ""
              (map (fun t => Tick (frameA (97 # 100) t)) [0; 100; 200; 300; 400; 500])
              (frameA (97 # 100) 600) "A"
              [Tick (frameA (97 # 100) 700); Timeout 1 3000] 3600)
    as (id & _ & _ & H).
  - vm_compute. reflexivity.
  - discriminate.
  - reflexivity.
  - vm_compute. reflexivity.
  - vm_compute. reflexivity.
  - vm_compute. discriminate.
  - exists id. rewrite H. vm_compute. reflexivity.
Defined.
